(** * eventpub-hooks: a shallow embedding of [src/index.ts]

    The module keeps one process-wide [eventMap : Map<EventKey, Set<Subscriber>>]
    and [usePubSub] returns closures over it and over a merged configuration.
    The embedding follows the source function by function:

    - JavaScript's [Map] and [Set] are modelled as ECMAScript specifies them:
      an insertion-ordered list of entries in which a deleted entry is
      replaced by an empty slot, so that a [forEach] in progress observes
      additions and deletions made by the callbacks it runs;
    - a [Set] is an object: the map holds references into a store of sets,
      so that a [forEach] over a set that has meanwhile been unmapped still
      iterates over the same object;
    - a [forEach] whose callbacks keep adding entries does not end: the two
      iterations take fuel and return [None] when it runs out;
    - console output and callback invocations are returned as a trace;
    - promises are described by their fate on a logical clock (milliseconds
      since the call that created them), and timers are those of Node.js,
      whose delay is an integer from 1 to 2^31 - 1. *)

From stdpp Require Import base list strings pretty.
From Stdlib Require Import ZArith Lia.

Local Open Scope string_scope.
Local Open Scope Z_scope.
Local Open Scope list_scope.

(** ** Values, keys, callbacks *)

(** [type EventKey = string | number].  Numeric keys are restricted to the
    integers that a number holds and prints exactly: those below 2^53 in
    magnitude, and those with at most 15 significant digits.  [Map]
    compares keys by SameValueZero, which on strings and integers is plain
    equality and never identifies a string with a number. *)
Inductive EventKey : Type :=
| KStr (s : string)
| KNum (n : Z).

#[global] Instance EventKey_eq_dec : EqDecision EventKey.
Proof. solve_decision. Defined.

(** A subscriber is a function object; a [Set] compares its members by
    reference, so a callback is identified by its reference. *)
Inductive Subscriber : Type :=
| Callback (ref : nat).

#[global] Instance Subscriber_eq_dec : EqDecision Subscriber.
Proof. solve_decision. Defined.

(** The values passed as arguments, returned, thrown or used as rejection
    reasons.  [VError m] stands for [new Error(m)]. *)
Inductive Value : Type :=
| VUndefined
| VNumber (n : Z)
| VString (s : string)
| VError (message : string).

#[global] Instance Value_eq_dec : EqDecision Value.
Proof. solve_decision. Defined.

(** ** Configuration *)

Inductive Level : Type := Error | Warn | Info | Debug.

#[global] Instance Level_eq_dec : EqDecision Level.
Proof. solve_decision. Defined.

Definition levelName (l : Level) : string :=
  match l with
  | Error => "error"
  | Warn => "warn"
  | Info => "info"
  | Debug => "debug"
  end.

(** [maxSubscribers] is a number whose default is [Infinity]. *)
Inductive Limit : Type :=
| Finite (n : Z)
| Infinity.

(** [interface PubSubConfig]: every field is optional. *)
Record PubSubConfig : Type := {
  opt_maxSubscribers : option Limit;
  opt_logLevel : option Level;
  opt_asyncTimeout : option Z
}.

(** The configuration after the merge, where every field is present. *)
Record Config : Type := {
  maxSubscribers : Limit;
  logLevel : Level;
  asyncTimeout : Z
}.

Definition defaultConfig : Config :=
  {| maxSubscribers := Infinity; logLevel := Error; asyncTimeout := 10000 |}.

(** [const config = { ...defaultConfig, ...initialConfig }] *)
Definition mergeConfig (initialConfig : PubSubConfig) : Config :=
  {| maxSubscribers := default (maxSubscribers defaultConfig) (opt_maxSubscribers initialConfig);
     logLevel := default (logLevel defaultConfig) (opt_logLevel initialConfig);
     asyncTimeout := default (asyncTimeout defaultConfig) (opt_asyncTimeout initialConfig) |}.

(** ** Observable events *)

Inductive Event : Type :=
| Invoked (callback : Subscriber) (args : list Value)
| Console (level : Level) (message : string) (extra : list Value).

#[global] Instance Event_eq_dec : EqDecision Event.
Proof. solve_decision. Defined.

(** ** log *)

Definition levels : list string := ["error"; "warn"; "info"; "debug"].

(** [Array.prototype.indexOf]: the first position of [x], or -1. *)
Fixpoint indexOf (l : list string) (x : string) : Z :=
  match l with
  | [] => -1
  | y :: l' =>
      if decide (x = y) then 0
      else let i := indexOf l' x in if i <? 0 then -1 else i + 1
  end.

Definition isLog (level : Level) (config : Config) : bool :=
  indexOf levels (levelName level) <=? indexOf levels (levelName (logLevel config)).

Definition log (level : Level) (message : string) (config : Config) : list Event :=
  if isLog level config then [Console level message []] else [].

(** ** handleError *)

(** The digits of a number without the zeros that end them. *)
Fixpoint dropTrailingZeros (digits : string) : string :=
  match digits with
  | EmptyString => EmptyString
  | String c rest =>
      match dropTrailingZeros rest with
      | EmptyString => if decide (String c EmptyString = "0") then EmptyString else String c EmptyString
      | kept => String c kept
      end
  end.

(** [Number.prototype.toString] on an integer, as a template literal
    applies it: the decimal digits below 10^21, and from there on the
    significant digits, a point after the first, and the exponent. *)
Definition showNumber (n : Z) : string :=
  if Z.abs n <? 10 ^ 21 then pretty n
  else
    let whole := pretty (Z.abs n) in
    let mantissa := match dropTrailingZeros whole with
                    | EmptyString => EmptyString
                    | String d EmptyString => String d EmptyString
                    | String d more => String d ("." +:+ more)
                    end in
    (if n <? 0 then "-" else "") +:+ mantissa +:+ "e+"
      +:+ pretty (Z.of_nat (String.length whole) - 1).

(** Template literals render a string as it is, a number through
    [toString] and [Infinity] by name. *)
Definition showKey (key : EventKey) : string :=
  match key with
  | KStr s => s
  | KNum n => showNumber n
  end.

Definition showLimit (l : Limit) : string :=
  match l with
  | Finite n => showNumber n
  | Infinity => "Infinity"
  end.

(** [if (key)]: the empty string and [0] are falsy, as is a missing key. *)
Definition truthy (key : EventKey) : bool :=
  match key with
  | KStr s => negb (bool_decide (s = ""))
  | KNum n => negb (n =? 0)
  end.

Definition handleError (error : Value) (key : option EventKey) : list Event :=
  match key with
  | Some k =>
      if truthy k
      then [Console Error ("Error in event callback for key " +:+ showKey k +:+ ":") [error]]
      else [Console Error "Error in event callback:" [error]]
  | None => [Console Error "Error in event callback:" [error]]
  end.

(** ** Set and Map objects *)

(** [[SetData]]: the entries in insertion order, [None] for a deleted one. *)
Abbreviation SetData := (list (option Subscriber)) (only parsing).

Definition setLive (s : SetData) : list Subscriber := omap id s.

Definition setSize (s : SetData) : Z := Z.of_nat (length (setLive s)).

Definition setAdd (f : Subscriber) (s : SetData) : SetData :=
  if decide (f ∈ setLive s) then s else s ++ [Some f].

Definition setDelete (f : Subscriber) (s : SetData) : SetData :=
  (λ e, if decide (e = Some f) then None else e) <$> s.

(** A reference to a [Set] object: its index in the store. *)
Abbreviation SetRef := nat (only parsing).

(** [[MapData]]: the entries in insertion order, [None] for a deleted one. *)
Abbreviation MapData := (list (option (EventKey * SetRef))) (only parsing).

Fixpoint mapGet (key : EventKey) (m : MapData) : option SetRef :=
  match m with
  | [] => None
  | Some (k, r) :: m' => if decide (key = k) then Some r else mapGet key m'
  | None :: m' => mapGet key m'
  end.

Definition mapHas (key : EventKey) (m : MapData) : bool :=
  match mapGet key m with Some _ => true | None => false end.

(** [Map.prototype.set]: an existing entry keeps its place. *)
Definition mapSet (key : EventKey) (r : SetRef) (m : MapData) : MapData :=
  if mapHas key m
  then (λ e, match e with
             | Some (k, r') => if decide (key = k) then Some (k, r) else e
             | None => None
             end) <$> m
  else m ++ [Some (key, r)].

Definition mapDelete (key : EventKey) (m : MapData) : MapData :=
  (λ e, match e with
        | Some (k, _) => if decide (key = k) then None else e
        | None => None
        end) <$> m.

Definition mapClear (m : MapData) : MapData := (λ _, None) <$> m.

Definition mapLive (m : MapData) : list (EventKey * SetRef) := omap id m.

Definition mapKeys (m : MapData) : list EventKey := (mapLive m).*1.

Definition mapValues (m : MapData) : list SetRef := (mapLive m).*2.

(** ** The registry *)

Record Registry : Type := {
  eventMap : MapData;
  store : list SetData
}.

(** [const eventMap = new Map()] *)
Definition emptyRegistry : Registry := {| eventMap := []; store := [] |}.

Definition deref (h : list SetData) (r : SetRef) : SetData := default [] (h !! r).

(** ** subscribe, unsubscribe, clear, debug *)

(** What [subscribe] returns: [() => {}] or [() => unsubscribe(key, callback)]. *)
Inductive Unsubscriber : Type :=
| NoOp
| Unsubscribe (key : EventKey) (callback : Subscriber).

(** [if (!eventMap.has(key)) eventMap.set(key, new Set());
    const subscribers = eventMap.get(key)!] *)
Definition ensure (key : EventKey) (σ : Registry) : Registry * SetRef :=
  match mapGet key (eventMap σ) with
  | Some r => (σ, r)
  | None =>
      let r := length (store σ) in
      ({| eventMap := mapSet key r (eventMap σ); store := store σ ++ [[]] |}, r)
  end.

(** [subscribers.size >= config.maxSubscribers] *)
Definition reached (size : Z) (limit : Limit) : bool :=
  match limit with
  | Finite n => n <=? size
  | Infinity => false
  end.

Definition maxMessage (config : Config) (key : EventKey) : string :=
  "Max subscribers (" +:+ showLimit (maxSubscribers config) +:+ ") reached for key " +:+ showKey key.

Definition subscribe (config : Config) (key : EventKey) (callback : Subscriber)
    (σ : Registry) : Registry * list Event * Unsubscriber :=
  let '(σ1, r) := ensure key σ in
  let subscribers := deref (store σ1) r in
  if reached (setSize subscribers) (maxSubscribers config)
  then (σ1, log Warn (maxMessage config key) config, NoOp)
  else ({| eventMap := eventMap σ1;
           store := <[r := setAdd callback subscribers]> (store σ1) |},
        [], Unsubscribe key callback).

Definition unsubscribe (key : EventKey) (callback : Subscriber) (σ : Registry) : Registry :=
  match mapGet key (eventMap σ) with
  | Some r =>
      let subscribers := setDelete callback (deref (store σ) r) in
      let h := <[r := subscribers]> (store σ) in
      if setSize subscribers =? 0
      then {| eventMap := mapDelete key (eventMap σ); store := h |}
      else {| eventMap := eventMap σ; store := h |}
  | None => σ
  end.

Definition clear (σ : Registry) : Registry :=
  {| eventMap := mapClear (eventMap σ); store := store σ |}.

(** Calling the function that [subscribe] returned. *)
Definition callUnsubscriber (u : Unsubscriber) (σ : Registry) : Registry :=
  match u with
  | NoOp => σ
  | Unsubscribe key callback => unsubscribe key callback σ
  end.

(** [debug.getSubscribersCount] and [debug.getAllKeys] *)
Definition getSubscribersCount (key : EventKey) (σ : Registry) : Z :=
  match mapGet key (eventMap σ) with
  | Some r => setSize (deref (store σ) r)
  | None => 0
  end.

Definition getAllKeys (σ : Registry) : list EventKey := mapKeys (eventMap σ).

(** The members of the set mapped to [key], in insertion order. *)
Definition subscribersOf (key : EventKey) (σ : Registry) : list Subscriber :=
  match mapGet key (eventMap σ) with
  | Some r => setLive (deref (store σ) r)
  | None => []
  end.

(** ** Promises and timers *)

(** The fate of a promise on the logical clock: the instant at which it is
    fulfilled or rejected, counted in milliseconds from the call that
    created it, or [Pending] when it never settles. *)
Inductive Fate : Type :=
| Fulfils (t : Z) (v : Value)
| Rejects (t : Z) (e : Value)
| Pending.

#[global] Instance Fate_eq_dec : EqDecision Fate.
Proof. solve_decision. Defined.

(** The earliest of a list of timed calls; of two calls at the same
    instant the one listed first comes first. *)
Fixpoint earliest {A : Type} (calls : list (Z * A)) : option (Z * A) :=
  match calls with
  | [] => None
  | c :: cs =>
      match earliest cs with
      | Some c' => if c'.1 <? c.1 then Some c' else Some c
      | None => Some c
      end
  end.

(** A call of [resolve] or of [reject] inside [new Promise(...)]. *)
Inductive Settle : Type :=
| Resolve (v : Value)
| Reject (e : Value).

(** [new Promise((resolve, reject) => ...)]: the first call settles the
    promise, every later one is ignored. *)
Definition newPromise (calls : list (Z * Settle)) : Fate :=
  match earliest calls with
  | Some (t, Resolve v) => Fulfils t v
  | Some (t, Reject e) => Rejects t e
  | None => Pending
  end.

(** The longest delay of a timer: the host keeps the delay in a signed
    32-bit integer. *)
Definition maxTimerDelay : Z := 2147483647.

(** [setTimeout(f, timeout)] runs [f] once [timeout] milliseconds have
    passed, for a delay from 1 to [maxTimerDelay].  Node.js sets a delay
    below 1 or above [maxTimerDelay] to 1.  (A browser runs such a timer
    with no delay; either way it is due at once, whatever [timeout] says.) *)
Definition timerDue (timeout : Z) : Z :=
  if (timeout <? 1) || (maxTimerDelay <? timeout) then 1 else timeout.

Definition TimeoutError : Value := VError "Async callback timeout".

(** The calls that [promise.then(...).catch(...)] makes in [withTimeout]. *)
Definition reactions (promise : Fate) : list (Z * Settle) :=
  match promise with
  | Fulfils t v => [(t, Resolve v)]
  | Rejects t e => [(t, Reject e)]
  | Pending => []
  end.

(** [withTimeout].  The reactions of [promise] are listed before the timer:
    a promise that settles in the instant in which the timer is due was
    settled by a reaction queued no later than the timer's callback.
    [clearTimeout] only releases the timer, whose call of [reject] would
    be ignored. *)
Definition withTimeout (promise : Fate) (timeout : Z) : Fate :=
  newPromise (reactions promise ++ [(timerDue timeout, Reject TimeoutError)]).

(** [p.catch(handler)] for a handler that logs and returns [undefined]:
    the events the handler emits, with their instant, and the new promise. *)
Definition promiseCatch (p : Fate) (handler : Value → list Event) : Fate * list (Z * Event) :=
  match p with
  | Fulfils t v => (Fulfils t v, [])
  | Rejects t e => (Fulfils t VUndefined, (λ ev, (t, ev)) <$> handler e)
  | Pending => (Pending, [])
  end.

Definition rejection (p : Fate) : option (Z * Value) :=
  match p with Rejects t e => Some (t, e) | _ => None end.

Definition isPending (p : Fate) : bool :=
  match p with Pending => true | _ => false end.

Definition settledAt (p : Fate) : Z :=
  match p with Fulfils t _ => t | Rejects t _ => t | Pending => 0 end.

(** [await Promise.all(ps)] as the last statement of an async function:
    the function's promise is rejected with the first rejection, and is
    otherwise fulfilled with [undefined] once every promise is fulfilled. *)
Definition awaitAll (ps : list Fate) : Fate :=
  match earliest (omap rejection ps) with
  | Some (t, e) => Rejects t e
  | None =>
      if existsb isPending ps then Pending
      else Fulfils (foldr Z.max 0 (settledAt <$> ps)) VUndefined
  end.

(** ** Callbacks *)

(** What a callback does to the registry while it runs, through the
    functions that [usePubSub] returned.  (A callback that publishes in
    turn is not modelled.) *)
Inductive Action : Type :=
| CallSubscribe (key : EventKey) (callback : Subscriber)
| CallUnsubscribe (key : EventKey) (callback : Subscriber)
| CallClear.

(** How a call of a callback ends. *)
Inductive Outcome : Type :=
| Returns (v : Value)
| Throws (e : Value)
| ReturnsPromise (p : Fate).

Record Body : Type := {
  actions : list Action;
  outcome : Outcome
}.

Definition runAction (config : Config) (a : Action) (σ : Registry) : Registry * list Event :=
  match a with
  | CallSubscribe key callback => (subscribe config key callback σ).1
  | CallUnsubscribe key callback => (unsubscribe key callback σ, [])
  | CallClear => (clear σ, [])
  end.

Fixpoint runActions (config : Config) (l : list Action) (σ : Registry) : Registry * list Event :=
  match l with
  | [] => (σ, [])
  | a :: l' =>
      let '(σ1, ev1) := runAction config a σ in
      let '(σ2, ev2) := runActions config l' σ1 in
      (σ2, ev1 ++ ev2)
  end.

(** [Promise.resolve(x)] for what a callback returned. *)
Definition promiseResolve (v : Value) : Fate := Fulfils 0 v.

Section Dispatch.

(** The code of the callbacks: what the function behind a reference does
    when it is called with given arguments. *)
Variable behaviour : Subscriber → list Value → Body.

(** [callback(...args)] *)
Definition invoke (config : Config) (callback : Subscriber) (args : list Value)
    (σ : Registry) : Registry * list Event * Outcome :=
  let body := behaviour callback args in
  let '(σ', ev) := runActions config (actions body) σ in
  (σ', Invoked callback args :: ev, outcome body).

(** [subscribers.forEach((callback) => { try { callback(...args) }
    catch (error) { handleError(error, key) } })] on the set object [r],
    from entry [index] on.  [Set.prototype.forEach] reads the entries of
    the live object at every step. *)
Fixpoint setForEach (fuel : nat) (config : Config) (key : option EventKey)
    (args : list Value) (r : SetRef) (index : nat) (σ : Registry)
    : option (Registry * list Event) :=
  match deref (store σ) r !! index with
  | None => Some (σ, [])
  | Some entry =>
      match fuel with
      | O => None
      | S fuel' =>
          match entry with
          | None => setForEach fuel' config key args r (S index) σ
          | Some callback =>
              let '(σ1, ev, out) := invoke config callback args σ in
              let caught := match out with
                            | Throws error => handleError error key
                            | _ => []
                            end in
              match setForEach fuel' config key args r (S index) σ1 with
              | Some (σ2, evs) => Some (σ2, ev ++ caught ++ evs)
              | None => None
              end
          end
      end
  end.

Definition publishSync (fuel : nat) (config : Config) (key : EventKey)
    (args : list Value) (σ : Registry) : option (Registry * list Event) :=
  match mapGet key (eventMap σ) with
  | Some r => setForEach fuel config (Some key) args r 0 σ
  | None => Some (σ, [])
  end.

(** [eventMap.forEach((subscribers) => subscribers.forEach(...))], from
    entry [index] of the map on; the inner handler calls
    [handleError(error)]. *)
Fixpoint mapForEach (fuel : nat) (config : Config) (args : list Value)
    (index : nat) (σ : Registry) : option (Registry * list Event) :=
  match eventMap σ !! index with
  | None => Some (σ, [])
  | Some entry =>
      match fuel with
      | O => None
      | S fuel' =>
          match entry with
          | None => mapForEach fuel' config args (S index) σ
          | Some (_, r) =>
              match setForEach fuel' config None args r 0 σ with
              | Some (σ1, ev) =>
                  match mapForEach fuel' config args (S index) σ1 with
                  | Some (σ2, evs) => Some (σ2, ev ++ evs)
                  | None => None
                  end
              | None => None
              end
          end
      end
  end.

Definition publishAllSync (fuel : nat) (config : Config) (args : list Value)
    (σ : Registry) : option (Registry * list Event) :=
  mapForEach fuel config args 0 σ.

(** What a call of [Array.prototype.map] over the callbacks yields: the
    promises, or the exception that ended it. *)
Inductive Mapped : Type :=
| Threw (e : Value)
| Promises (ps : list Fate).

Record Started : Type := {
  registryAfter : Registry;
  events : list Event;
  laterEvents : list (Z * Event);
  mapped : Mapped
}.

(** [callbacks.map((callback) => withTimeout(Promise.resolve(
    callback(...args)), config.asyncTimeout).catch(handler))], where
    [handler] calls [handleError] with [key].  An exception thrown by
    [callback(...args)] is thrown by [map]. *)
Fixpoint startAll (config : Config) (key : option EventKey) (args : list Value)
    (callbacks : list Subscriber) (σ : Registry) : Started :=
  match callbacks with
  | [] => {| registryAfter := σ; events := []; laterEvents := []; mapped := Promises [] |}
  | callback :: rest =>
      let '(σ1, ev, out) := invoke config callback args σ in
      let continue (promise : Fate) :=
        let '(p, late) :=
          promiseCatch (withTimeout promise (asyncTimeout config))
                       (λ error, handleError error key) in
        let s := startAll config key args rest σ1 in
        {| registryAfter := registryAfter s;
           events := ev ++ events s;
           laterEvents := late ++ laterEvents s;
           mapped := match mapped s with
                     | Threw e => Threw e
                     | Promises ps => Promises (p :: ps)
                     end |} in
      match out with
      | Throws e =>
          {| registryAfter := σ1; events := ev; laterEvents := []; mapped := Threw e |}
      | Returns v => continue (promiseResolve v)
      | ReturnsPromise promise => continue promise
      end
  end.

(** The run of an async function: the registry and the events when the
    call returns its promise, the events that follow (those of one
    callback after those of the callbacks started before it, each with
    its instant), and the fate of the promise. *)
Record Run : Type := {
  registryOf : Registry;
  eventsOf : list Event;
  laterEventsOf : list (Z * Event);
  promiseOf : Fate
}.

(** The body of the async function ends when [map] throws, which rejects
    the promise it returned, or awaits [Promise.all]. *)
Definition finish (s : Started) : Run :=
  {| registryOf := registryAfter s;
     eventsOf := events s;
     laterEventsOf := laterEvents s;
     promiseOf := match mapped s with
                  | Threw e => Rejects 0 e
                  | Promises ps => awaitAll ps
                  end |}.

Definition publish (config : Config) (key : EventKey) (args : list Value)
    (σ : Registry) : Run :=
  match mapGet key (eventMap σ) with
  | Some r => finish (startAll config (Some key) args (setLive (deref (store σ) r)) σ)
  | None =>
      {| registryOf := σ; eventsOf := []; laterEventsOf := [];
         promiseOf := Fulfils 0 VUndefined |}
  end.

(** [sets.flatMap((subscribers) => Array.from(subscribers).map(...))]:
    each set is copied when [flatMap] reaches it. *)
Fixpoint startSets (config : Config) (args : list Value) (sets : list SetRef)
    (σ : Registry) : Started :=
  match sets with
  | [] => {| registryAfter := σ; events := []; laterEvents := []; mapped := Promises [] |}
  | r :: rest =>
      let s1 := startAll config None args (setLive (deref (store σ) r)) σ in
      match mapped s1 with
      | Threw e => s1
      | Promises ps1 =>
          let s2 := startSets config args rest (registryAfter s1) in
          {| registryAfter := registryAfter s2;
             events := events s1 ++ events s2;
             laterEvents := laterEvents s1 ++ laterEvents s2;
             mapped := match mapped s2 with
                       | Threw e => Threw e
                       | Promises ps2 => Promises (ps1 ++ ps2)
                       end |}
      end
  end.

(** [Array.from(eventMap.values())] is taken when the call starts. *)
Definition publishAll (config : Config) (args : list Value) (σ : Registry) : Run :=
  finish (startSets config args (mapValues (eventMap σ)) σ).

End Dispatch.

(** * Notions used in the statements *)

(** The position of a level in [error < warn < info < debug]. *)
Definition rank (l : Level) : nat :=
  match l with
  | Error => 0
  | Warn => 1
  | Info => 2
  | Debug => 3
  end.

(** The operation has settled when the clock shows [due]. *)
Definition settlesBy (promise : Fate) (due : Z) : Prop :=
  match promise with
  | Fulfils t _ | Rejects t _ => t ≤ due
  | Pending => False
  end.

#[global] Instance settlesBy_dec promise due : Decision (settlesBy promise due).
Proof. destruct promise; simpl; apply _. Defined.

(** ** Concrete registries and callbacks used below *)

Module Sample.

Definition a : EventKey := KStr "a".
Definition b : EventKey := KStr "b".
Definition f : Subscriber := Callback 1.
Definition g : Subscriber := Callback 2.

Definition register (config : Config) (key : EventKey) (callback : Subscriber)
    (σ : Registry) : Registry :=
  (subscribe config key callback σ).1.1.

(** [subscribe("a", g)] on the empty registry. *)
Definition onlyG : Registry := register defaultConfig a g emptyRegistry.

(** [subscribe("a", f); subscribe("a", g)] on the empty registry. *)
Definition both : Registry :=
  register defaultConfig a g (register defaultConfig a f emptyRegistry).

(** [subscribe(0, f); subscribe(0, g)] on the empty registry. *)
Definition atZero : Registry :=
  register defaultConfig (KNum 0) g (register defaultConfig (KNum 0) f emptyRegistry).

Definition noSubscribers : Config :=
  mergeConfig {| opt_maxSubscribers := Some (Finite 0);
                 opt_logLevel := None; opt_asyncTimeout := None |}.

Definition atMostTwo : Config :=
  mergeConfig {| opt_maxSubscribers := Some (Finite 2);
                 opt_logLevel := Some Warn; opt_asyncTimeout := None |}.

End Sample.


(** ** Callbacks that leave the registry alone *)

(** No callback calls [subscribe], [unsubscribe] or [clear]. *)
Definition quiet (behaviour : Subscriber → list Value → Body) : Prop :=
  ∀ callback args, actions (behaviour callback args) = [].

(** The calls of callbacks recorded in a trace, in order. *)
Definition invocations (evs : list Event) : list (Subscriber * list Value) :=
  omap (λ ev, match ev with
              | Invoked callback args => Some (callback, args)
              | Console _ _ _ => None
              end) evs.

(** What the console shows in a trace, in order. *)
Definition consoleOutput (evs : list Event) : list Event :=
  omap (λ ev, match ev with
              | Invoked _ _ => None
              | Console _ _ _ => Some ev
              end) evs.

(** One step of a synchronous fan-out for a quiet callback: the call, and
    the report of what it threw, made with the key the caller passes. *)
Definition delivered (behaviour : Subscriber → list Value → Body)
    (key : option EventKey) (args : list Value) (callback : Subscriber) : list Event :=
  Invoked callback args ::
  match outcome (behaviour callback args) with
  | Throws error => handleError error key
  | _ => []
  end.

(** Fuel that lets a [forEach] over the map and over any of the sets visit
    every entry the registry has now. *)
Definition fuelFor (σ : Registry) : nat :=
  (length (eventMap σ) + max_list (length <$> store σ))%nat.

(** ** Well-formed registries *)

(** What a [Map] of [Set] objects guarantees by itself: a key occurs once,
    every value is a set object of the store, no two keys are mapped to the
    same object, and a set holds a callback once. *)
Record wfRegistry (σ : Registry) : Prop := {
  wf_keys : NoDup (mapKeys (eventMap σ));
  wf_values : NoDup (mapValues (eventMap σ));
  wf_refs : Forall (λ r, r < length (store σ))%nat (mapValues (eventMap σ));
  wf_sets : Forall (λ s, NoDup (setLive s)) (store σ)
}.

#[global] Instance wfRegistry_dec (σ : Registry) : Decision (wfRegistry σ).
Proof.
  refine (match decide (NoDup (mapKeys (eventMap σ))
                        ∧ NoDup (mapValues (eventMap σ))
                        ∧ Forall (λ r, r < length (store σ))%nat (mapValues (eventMap σ))
                        ∧ Forall (λ s, NoDup (setLive s)) (store σ)) with
          | left H => left _
          | right H => right _
          end).
  - destruct H as (? & ? & ? & ?). by split.
  - intros [? ? ? ?]. by apply H.
Defined.

(** The invariant of the registry in the spec: a key is in the map exactly
    when it has a subscriber. *)
Definition noEmptySets (σ : Registry) : Prop :=
  ∀ key, key ∈ getAllKeys σ ↔ 0 < getSubscribersCount key σ.

(** No key has more than [n] subscribers (none when [n] is negative). *)
Definition withinLimit (n : Z) (σ : Registry) : Prop :=
  ∀ key, getSubscribersCount key σ ≤ Z.max 0 n.

(** A configuration that lets every key have at least one subscriber. *)
Definition capacityPositive (config : Config) : Prop :=
  match maxSubscribers config with
  | Finite n => 1 ≤ n
  | Infinity => True
  end.

#[global] Instance capacityPositive_dec config : Decision (capacityPositive config).
Proof. unfold capacityPositive. destruct (maxSubscribers config); apply _. Defined.

(** No callback throws when it is called with [args]. *)
Definition noSyncThrow (behaviour : Subscriber → list Value → Body)
    (args : list Value) : Prop :=
  ∀ callback e, outcome (behaviour callback args) ≠ Throws e.

(** What is to be reported for one callback that was called and did not
    throw, with a deadline of [deadline] milliseconds, each report with its
    instant: nothing for a callback that returned a value or a promise
    fulfilled by the deadline; the reason of a promise rejected by the
    deadline, at the instant of the rejection; the timeout error, at the
    deadline, for a promise that has not settled by then.  The report is
    the one [handleError] writes for [key]. *)
Definition expectedReports (deadline : Z) (key : option EventKey) (out : Outcome)
    : list (Z * Event) :=
  let timedOut := (λ ev, (deadline, ev)) <$> handleError TimeoutError key in
  match out with
  | Returns _ => []
  | Throws _ => []
  | ReturnsPromise (Fulfils t _) => if t <=? deadline then [] else timedOut
  | ReturnsPromise (Rejects t e) =>
      if t <=? deadline then (λ ev, (t, ev)) <$> handleError e key else timedOut
  | ReturnsPromise Pending => timedOut
  end.

(** The instant at which a callback that did not throw is done with, under
    the same deadline: at once when it returned a value, when its promise
    settles, or at the deadline. *)
Definition expectedSettle (deadline : Z) (out : Outcome) : Z :=
  match out with
  | Returns _ => 0
  | Throws _ => 0
  | ReturnsPromise (Fulfils t _) => if t <=? deadline then t else deadline
  | ReturnsPromise (Rejects t _) => if t <=? deadline then t else deadline
  | ReturnsPromise Pending => deadline
  end.

(** The promise that [publish] awaits for one callback is fulfilled, by the
    time the timer is due at the latest. *)
Definition fulfilledBy (due : Z) (p : Fate) : Prop :=
  match p with
  | Fulfils t _ => t ≤ due
  | _ => False
  end.

(** Callbacks for the examples: [Sample.f] throws, [Sample.g] returns. *)
Definition throwing (callback : Subscriber) (args : list Value) : Body :=
  if decide (callback = Sample.f)
  then {| actions := []; outcome := Throws (VError "boom") |}
  else {| actions := []; outcome := Returns VUndefined |}.

(** [Sample.g] takes [Sample.f] out of the set of ["a"] and puts it back;
    [Sample.f] just returns. *)
Definition resubscribing (callback : Subscriber) (args : list Value) : Body :=
  if decide (callback = Sample.g)
  then {| actions := [CallUnsubscribe Sample.a Sample.f; CallSubscribe Sample.a Sample.f];
          outcome := Returns VUndefined |}
  else {| actions := []; outcome := Returns VUndefined |}.

(** [Sample.f] returns a promise that never settles, every other callback
    a promise that is rejected after 5 ms. *)
Definition stalling (callback : Subscriber) (args : list Value) : Body :=
  if decide (callback = Sample.f)
  then {| actions := []; outcome := ReturnsPromise Pending |}
  else {| actions := []; outcome := ReturnsPromise (Rejects 5 (VError "late")) |}.

(** [usePubSub({ asyncTimeout: 50 })] *)
Definition fiftyMs : Config :=
  mergeConfig {| opt_maxSubscribers := None; opt_logLevel := None;
                 opt_asyncTimeout := Some 50 |}.

(** [Sample.f] takes itself out of the set of ["a"] and puts itself back. *)
Definition selfResubscribing (callback : Subscriber) (args : list Value) : Body :=
  if decide (callback = Sample.f)
  then {| actions := [CallUnsubscribe Sample.a Sample.f; CallSubscribe Sample.a Sample.f];
          outcome := Returns VUndefined |}
  else {| actions := []; outcome := Returns VUndefined |}.

(** A decidable proposition about concrete data holds by evaluation. *)
Ltac by_evaluation := apply (bool_decide_unpack _); by vm_compute.
(** * Properties *)

(** ** The logger *)

Lemma indexOf_levels (l : Level) : indexOf levels (levelName l) = Z.of_nat (rank l).
Proof. by destruct l. Qed.

Lemma isLog_rank (level : Level) (config : Config) :
  isLog level config = bool_decide (rank level ≤ rank (logLevel config))%nat.
Proof.
  unfold isLog. rewrite !indexOf_levels.
  case_bool_decide; [apply Z.leb_le | apply Z.leb_gt]; lia.
Qed.

(** C8.  A call of [log] with level [L] under the configured level [C]
    writes its message (with the console method of that level) exactly when
    [L] is at or before [C] in the order error < warn < info < debug, which
    is the comparison of the two positions in [levels] the code makes;
    otherwise it writes nothing.  Hence a configured level admits every
    level of higher severity that it admits one of lower severity for. *)
Theorem log_emits_iff_at_or_above_threshold (level : Level) (message : string) (config : Config) :
  indexOf levels (levelName level) = Z.of_nat (rank level)
  ∧ indexOf levels (levelName (logLevel config)) = Z.of_nat (rank (logLevel config))
  ∧ (log level message config = [Console level message []]
     ↔ (rank level ≤ rank (logLevel config))%nat)
  ∧ (log level message config = []
     ↔ (rank (logLevel config) < rank level)%nat)
  ∧ ∀ level', (rank level' ≤ rank level)%nat →
      log level message config = [Console level message []] →
      log level' message config = [Console level' message []].
Proof.
  split; [apply indexOf_levels|]. split; [apply indexOf_levels|].
  unfold log. rewrite isLog_rank.
  split; [|split].
  - case_bool_decide; split; intros; try done; lia.
  - case_bool_decide; split; intros; try done; lia.
  - intros level' Hle. rewrite isLog_rank.
    repeat case_bool_decide; try done; lia.
Qed.

(** Numbers in the messages: a key or a limit is printed in decimal below
    10^21 and with an exponent from there on. *)
Example numbers_in_messages :
  showKey (KNum 42) = "42"
  ∧ showKey (KNum (-7)) = "-7"
  ∧ showKey (KNum (10 ^ 21)) = "1e+21"
  ∧ showLimit (Finite 1500000000000000000000) = "1.5e+21"
  ∧ showLimit Infinity = "Infinity"
  ∧ maxMessage Sample.atMostTwo (KNum 7) = "Max subscribers (2) reached for key 7".
Proof. by vm_compute. Qed.

(** ** The timeout guard *)

Lemma timerDue_positive (timeout : Z) : 1 ≤ timerDue timeout.
Proof.
  unfold timerDue, maxTimerDelay.
  destruct (Z.ltb_spec timeout 1), (Z.ltb_spec 2147483647 timeout); simpl; lia.
Qed.

Lemma timerDue_literal (timeout : Z) :
  1 ≤ timeout ≤ maxTimerDelay → timerDue timeout = timeout.
Proof.
  unfold timerDue, maxTimerDelay. intros H.
  destruct (Z.ltb_spec timeout 1), (Z.ltb_spec 2147483647 timeout); simpl; lia.
Qed.

Lemma timerDue_clamped (timeout : Z) :
  ¬ (1 ≤ timeout ≤ maxTimerDelay) → timerDue timeout = 1.
Proof.
  unfold timerDue, maxTimerDelay. intros H.
  destruct (Z.ltb_spec timeout 1), (Z.ltb_spec 2147483647 timeout); simpl; lia.
Qed.

Lemma withTimeout_settled (promise : Fate) (timeout : Z) :
  settlesBy promise (timerDue timeout) → withTimeout promise timeout = promise.
Proof.
  unfold withTimeout, newPromise.
  destruct promise as [t v|t e|]; simpl; intros H; try done.
  - destruct (Z.ltb_spec (timerDue timeout) t); [lia | done].
  - destruct (Z.ltb_spec (timerDue timeout) t); [lia | done].
Qed.

Lemma withTimeout_late (promise : Fate) (timeout : Z) :
  ¬ settlesBy promise (timerDue timeout) →
  withTimeout promise timeout = Rejects (timerDue timeout) TimeoutError.
Proof.
  unfold withTimeout, newPromise.
  destruct promise as [t v|t e|]; simpl; intros H; try done.
  - destruct (Z.ltb_spec (timerDue timeout) t); [done | lia].
  - destruct (Z.ltb_spec (timerDue timeout) t); [done | lia].
Qed.

(** C3, as the code has it.  [withTimeout] yields the operation's own
    result or failure, unchanged, when the operation settles no later than
    the timer is due, and otherwise a rejection with the timeout error at
    the instant the timer is due; it never stays pending.  The timer is
    due after [durationMs] milliseconds for a [durationMs] from 1 to
    2147483647, and after 1 millisecond for any other: a non-positive
    duration is no sentinel, the operation is then given 1 millisecond. *)
Theorem withTimeout_races_operation_against_timer (operation : Fate) (durationMs : Z) :
  let due := if decide (1 ≤ durationMs ≤ 2147483647) then durationMs else 1 in
  withTimeout operation durationMs =
    (if decide (settlesBy operation due) then operation
     else Rejects due TimeoutError)
  ∧ withTimeout operation durationMs ≠ Pending.
Proof.
  intros due.
  assert (timerDue durationMs = due) as Hdue.
  { unfold due. case_decide; [by apply timerDue_literal | by apply timerDue_clamped]. }
  clearbody due. subst due.
  destruct (decide (settlesBy operation (timerDue durationMs))) as [H|H].
  - rewrite withTimeout_settled by done. split; [done|]. by destruct operation.
  - by rewrite withTimeout_late.
Qed.

(** C3, as the spec has it, fails on both counts.  With [durationMs = 0]
    an operation that fulfils after 5 ms is not awaited, the guard rejects
    after 1 ms.  And a positive [durationMs] is not always the deadline:
    with [durationMs = 2147483648] an operation that fulfils after 20 ms is
    timed out after 1 ms. *)
Lemma withTimeout_deadline_is_not_as_specified :
  ¬ (∀ (operation : Fate) (durationMs : Z),
       durationMs ≤ 0 → withTimeout operation durationMs = operation)
  ∧ ¬ (∀ (operation : Fate) (durationMs : Z),
         0 < durationMs →
         withTimeout operation durationMs =
           (if decide (settlesBy operation durationMs) then operation
            else Rejects durationMs TimeoutError)).
Proof.
  split.
  - intros H. specialize (H (Fulfils 5 (VNumber 1)) 0 ltac:(lia)).
    vm_compute in H. discriminate H.
  - intros H. specialize (H (Fulfils 20 (VNumber 1)) 2147483648 ltac:(lia)).
    vm_compute in H. discriminate H.
Qed.

(** The guard at the ends of the range of a timer's delay, and on an
    operation that never settles. *)
Example withTimeout_at_the_longest_delay :
  withTimeout (Fulfils 20 (VNumber 1)) 2147483648 = Rejects 1 TimeoutError
  ∧ withTimeout (Fulfils 20 (VNumber 1)) 2147483647 = Fulfils 20 (VNumber 1)
  ∧ withTimeout (Rejects 20 (VError "late")) 2147483647 = Rejects 20 (VError "late")
  ∧ withTimeout (Fulfils 20 (VNumber 1)) 1 = Rejects 1 TimeoutError
  ∧ withTimeout (Fulfils 20 (VNumber 1)) 0 = Rejects 1 TimeoutError
  ∧ withTimeout Pending 10 = Rejects 10 TimeoutError.
Proof. by vm_compute. Qed.

(** ** Sets and maps *)

Lemma setLive_app (s1 s2 : SetData) : setLive (s1 ++ s2) = setLive s1 ++ setLive s2.
Proof. apply omap_app. Qed.

Lemma setLive_setDelete (f : Subscriber) (s : SetData) :
  setLive (setDelete f s) = filter (λ g, g ≠ f) (setLive s).
Proof.
  unfold setLive, setDelete. induction s as [|[g|] s IH]; [done| |done].
  rewrite fmap_cons. case_decide as Hg.
  - simplify_eq. cbn [omap list_omap id]. rewrite IH. simpl.
    rewrite filter_cons_False; [done | intros H; by apply H].
  - cbn [omap list_omap id]. rewrite IH. simpl.
    rewrite filter_cons_True; [done | intros ->; by apply Hg].
Qed.

Lemma setLive_setAdd (f : Subscriber) (s : SetData) :
  setLive (setAdd f s) = if decide (f ∈ setLive s) then setLive s else setLive s ++ [f].
Proof. unfold setAdd. case_decide; [done|]. by rewrite setLive_app. Qed.

Lemma mapGet_app (key : EventKey) (m1 m2 : MapData) :
  mapGet key (m1 ++ m2) =
    match mapGet key m1 with Some r => Some r | None => mapGet key m2 end.
Proof.
  induction m1 as [|[[k r]|] m1 IH]; simpl; try done.
  by case_decide.
Qed.

Lemma mapGet_Some_live (key : EventKey) (m : MapData) (r : SetRef) :
  mapGet key m = Some r → (key, r) ∈ mapLive m.
Proof.
  unfold mapLive. induction m as [|[[k r']|] m IH]; simpl; intros H; try done.
  - case_decide; simplify_eq; [left | right; auto].
  - auto.
Qed.

Lemma mapGet_None_keys (key : EventKey) (m : MapData) :
  mapGet key m = None ↔ key ∉ mapKeys m.
Proof.
  unfold mapKeys, mapLive. induction m as [|[[k r]|] m IH]; simpl.
  - split; [intros _; apply not_elem_of_nil | done].
  - rewrite not_elem_of_cons. case_decide as Hk.
    + split; [done | by intros [? _]].
    + rewrite IH. split; [done | by intros [_ ?]].
  - done.
Qed.

Lemma mapLive_mapDelete (key : EventKey) (m : MapData) :
  mapLive (mapDelete key m) = filter (λ kr, kr.1 ≠ key) (mapLive m).
Proof.
  unfold mapLive, mapDelete. induction m as [|[[k r]|] m IH]; [done| |done].
  rewrite fmap_cons. case_decide as Hk.
  - cbn [omap list_omap id]. rewrite IH. simpl.
    rewrite filter_cons_False; [done | simpl; intros H; by apply H].
  - cbn [omap list_omap id]. rewrite IH. simpl.
    rewrite filter_cons_True; [done | simpl; intros H; by apply Hk].
Qed.

Lemma mapKeys_mapDelete (key : EventKey) (m : MapData) : key ∉ mapKeys (mapDelete key m).
Proof.
  unfold mapKeys. rewrite mapLive_mapDelete.
  intros ([k r] & -> & [H _]%list_elem_of_filter)%list_elem_of_fmap. done.
Qed.

Lemma mapGet_mapDelete (key : EventKey) (m : MapData) : mapGet key (mapDelete key m) = None.
Proof. apply mapGet_None_keys, mapKeys_mapDelete. Qed.

Lemma mapSet_fresh (key : EventKey) (r : SetRef) (m : MapData) :
  mapGet key m = None → mapSet key r m = m ++ [Some (key, r)].
Proof. unfold mapSet, mapHas. by intros ->. Qed.

Lemma deref_app_new (h : list SetData) : deref (h ++ [[]]) (length h) = [].
Proof. unfold deref. by rewrite list_lookup_middle. Qed.

Lemma deref_insert (h : list SetData) (r : SetRef) (s : SetData) :
  deref (<[r := s]> h) r = if decide (r < length h)%nat then s else [].
Proof.
  unfold deref. case_decide.
  - by rewrite list_lookup_insert_eq.
  - rewrite list_insert_ge by lia. by rewrite lookup_ge_None_2 by lia.
Qed.

(** ** subscribe and unsubscribe *)

(** What [ensure] establishes: the key is mapped to the set it returns,
    whose size is the subscriber count the caller saw before. *)
Lemma ensure_spec (key : EventKey) (σ σ1 : Registry) (r : SetRef) :
  ensure key σ = (σ1, r) →
  mapGet key (eventMap σ1) = Some r
  ∧ setLive (deref (store σ1) r) = subscribersOf key σ
  ∧ (mapGet key (eventMap σ) ≠ None → σ1 = σ).
Proof.
  unfold ensure, subscribersOf. destruct (mapGet key (eventMap σ)) as [r'|] eqn:Hget.
  - intros [= <- <-]. by rewrite Hget.
  - intros [= <- <-]. simpl. rewrite mapSet_fresh by done.
    rewrite mapGet_app, Hget. simpl. rewrite decide_True by done.
    by rewrite deref_app_new.
Qed.

Lemma count_subscribersOf (key : EventKey) (σ : Registry) :
  getSubscribersCount key σ = Z.of_nat (length (subscribersOf key σ)).
Proof. unfold getSubscribersCount, subscribersOf, setSize. by destruct (mapGet _ _). Qed.

Lemma subscribe_reached (config : Config) (key : EventKey) (callback : Subscriber)
    (σ : Registry) :
  reached (getSubscribersCount key σ) (maxSubscribers config) = true →
  subscribe config key callback σ =
    ((ensure key σ).1, log Warn (maxMessage config key) config, NoOp).
Proof.
  intros Hmax. unfold subscribe. destruct (ensure key σ) as [σ1 r] eqn:He.
  destruct (ensure_spec _ _ _ _ He) as (_ & Hlive & _).
  unfold setSize. rewrite Hlive, <- count_subscribersOf, Hmax. done.
Qed.

Lemma ensure_subscribersOf (key : EventKey) (σ : Registry) :
  subscribersOf key (ensure key σ).1 = subscribersOf key σ.
Proof.
  destruct (ensure key σ) as [σ1 r] eqn:He.
  destruct (ensure_spec _ _ _ _ He) as (Hget & Hlive & _).
  simpl. unfold subscribersOf at 1. by rewrite Hget.
Qed.

(** C4.  When the subscriber count of [key] has reached [maxSubscribers],
    [subscribe] emits the warning through [log] at level "warn" (so it is
    written when the configured level admits "warn"), leaves the members
    and the subscriber count of [key] as they were, and returns the
    function that does nothing. *)
Theorem subscribe_at_capacity_warns_and_registers_nothing
    (config : Config) (key : EventKey) (callback : Subscriber) (σ : Registry) (n : Z) :
  maxSubscribers config = Finite n →
  n ≤ getSubscribersCount key σ →
  let '(σ', emitted, unsub) := subscribe config key callback σ in
  emitted = (if bool_decide (rank Warn ≤ rank (logLevel config))%nat
             then [Console Warn (maxMessage config key) []] else [])
  ∧ subscribersOf key σ' = subscribersOf key σ
  ∧ getSubscribersCount key σ' = getSubscribersCount key σ
  ∧ unsub = NoOp
  ∧ callUnsubscriber unsub σ' = σ'.
Proof.
  intros Hmax Hn. rewrite subscribe_reached.
  - unfold log. rewrite isLog_rank. split; [done|].
    rewrite !count_subscribersOf, ensure_subscribersOf. done.
  - rewrite Hmax. simpl. by apply Z.leb_le.
Qed.

Lemma unsubscribe_members (key : EventKey) (f g : Subscriber) (σ : Registry) :
  g ∈ subscribersOf key (unsubscribe key f σ) → g ∈ subscribersOf key σ ∧ g ≠ f.
Proof.
  unfold unsubscribe. destruct (mapGet key (eventMap σ)) as [r|] eqn:Hget.
  - destruct (setSize _ =? 0); unfold subscribersOf; simpl.
    + rewrite mapGet_mapDelete. by intros ?%elem_of_nil.
    + rewrite Hget, deref_insert. case_decide; [|by intros ?%elem_of_nil].
      rewrite setLive_setDelete. by intros [? ?]%list_elem_of_filter.
  - unfold subscribersOf. rewrite Hget. by intros ?%elem_of_nil.
Qed.

(** C9.  When the set of [key] has reached [maxSubscribers] and [callback]
    is one of its members, [subscribe] leaves the registry as it is and
    returns the function that does nothing, not the closure over
    [(key, callback)]: calling what it returned leaves [callback]
    registered, where the closure would unregister it. *)
Theorem subscribe_member_at_capacity_returns_noop
    (config : Config) (key : EventKey) (callback : Subscriber) (σ : Registry) (n : Z) :
  maxSubscribers config = Finite n →
  n ≤ getSubscribersCount key σ →
  callback ∈ subscribersOf key σ →
  let '(σ', _, unsub) := subscribe config key callback σ in
  σ' = σ
  ∧ unsub = NoOp
  ∧ unsub ≠ Unsubscribe key callback
  ∧ callback ∈ subscribersOf key (callUnsubscriber unsub σ')
  ∧ callback ∉ subscribersOf key (callUnsubscriber (Unsubscribe key callback) σ').
Proof.
  intros Hmax Hn Hin. rewrite subscribe_reached.
  2:{ rewrite Hmax. simpl. by apply Z.leb_le. }
  assert (ensure key σ = (σ, default 0%nat (mapGet key (eventMap σ)))) as ->.
  { unfold ensure. unfold subscribersOf in Hin.
    destruct (mapGet key (eventMap σ)); [done | by apply elem_of_nil in Hin]. }
  simpl. repeat split; try done.
  intros [_ H]%unsubscribe_members. done.
Qed.

Lemma nil_no_elem {A : Type} (l : list A) : (∀ x, x ∉ l) → l = [].
Proof. destruct l as [|x l]; [done|]. intros H. destruct (H x). left. Qed.

Lemma subscribe_members (config : Config) (key : EventKey) (f g : Subscriber) (σ : Registry) :
  g ∈ subscribersOf key (subscribe config key f σ).1.1 →
  g = f ∨ g ∈ subscribersOf key σ.
Proof.
  unfold subscribe. destruct (ensure key σ) as [σ1 r] eqn:He.
  destruct (ensure_spec _ _ _ _ He) as (Hget & Hlive & _).
  destruct (reached _ _); unfold subscribersOf at 1; simpl; rewrite Hget.
  - rewrite Hlive. auto.
  - rewrite deref_insert. case_decide; [|by intros ?%elem_of_nil].
    rewrite setLive_setAdd, Hlive. case_decide; [auto|].
    intros [?|Hs%list_elem_of_singleton]%elem_of_app; subst; auto.
Qed.

Lemma unsubscribe_sole_member (key : EventKey) (f : Subscriber) (σ : Registry) :
  (∀ g, g ∈ subscribersOf key σ → g = f) →
  getSubscribersCount key (unsubscribe key f σ) = 0
  ∧ key ∉ getAllKeys (unsubscribe key f σ).
Proof.
  intros Hsole. unfold unsubscribe.
  destruct (mapGet key (eventMap σ)) as [r|] eqn:Hget.
  - assert (setLive (setDelete f (deref (store σ) r)) = []) as Hnil.
    { apply nil_no_elem. intros g. rewrite setLive_setDelete.
      intros [Hne Hin]%list_elem_of_filter. apply Hne, Hsole.
      unfold subscribersOf. by rewrite Hget. }
    unfold setSize. rewrite Hnil. simpl.
    unfold getSubscribersCount, getAllKeys. simpl.
    rewrite mapGet_mapDelete. split; [done | apply mapKeys_mapDelete].
  - unfold getSubscribersCount, getAllKeys. rewrite Hget.
    split; [done | by apply mapGet_None_keys].
Qed.

(** C5, as the code has it.  When [k] has no subscriber other than [f]
    (none at all, or [f] alone), [subscribe(k, f)] followed at once by
    [unsubscribe(k, f)] leaves the subscriber count of [k] at 0 and [k]
    out of [getAllKeys()]. *)
Theorem subscribe_then_unsubscribe_sole_subscriber
    (config : Config) (k : EventKey) (f : Subscriber) (σ : Registry) :
  (∀ g, g ∈ subscribersOf k σ → g = f) →
  let σ' := unsubscribe k f (subscribe config k f σ).1.1 in
  getSubscribersCount k σ' = 0 ∧ k ∉ getAllKeys σ'.
Proof.
  intros Hsole. apply unsubscribe_sole_member.
  intros g [->|Hin]%subscribe_members; auto.
Qed.

(** C5, as the spec has it, fails from a registry in which ["a"] has
    another subscriber [g]: after [subscribe("a", f); unsubscribe("a", f)]
    the count of ["a"] is 1 and ["a"] is still a key. *)
Lemma subscribe_then_unsubscribe_keeps_other_subscribers :
  ¬ (∀ (config : Config) (k : EventKey) (f : Subscriber) (σ : Registry),
       let σ' := unsubscribe k f (subscribe config k f σ).1.1 in
       getSubscribersCount k σ' = 0 ∧ k ∉ getAllKeys σ').
Proof.
  intros H.
  destruct (H defaultConfig Sample.a Sample.f Sample.onlyG) as [Hcount _].
  vm_compute in Hcount. discriminate Hcount.
Qed.

Lemma subscribe_then_unsubscribe_sole_subscriber_witness :
  let σ' := unsubscribe Sample.a Sample.f
              (subscribe defaultConfig Sample.a Sample.f emptyRegistry).1.1 in
  getSubscribersCount Sample.a σ' = 0 ∧ Sample.a ∉ getAllKeys σ'.
Proof.
  apply (subscribe_then_unsubscribe_sole_subscriber defaultConfig Sample.a Sample.f emptyRegistry).
  intros g Hg. vm_compute in Hg. by apply elem_of_nil in Hg.
Defined.

Lemma subscribe_at_capacity_witness :
  let '(σ', emitted, unsub) := subscribe Sample.atMostTwo Sample.a (Callback 3) Sample.both in
  emitted = (if bool_decide (rank Warn ≤ rank (logLevel Sample.atMostTwo))%nat
             then [Console Warn (maxMessage Sample.atMostTwo Sample.a) []] else [])
  ∧ subscribersOf Sample.a σ' = subscribersOf Sample.a Sample.both
  ∧ getSubscribersCount Sample.a σ' = getSubscribersCount Sample.a Sample.both
  ∧ unsub = NoOp
  ∧ callUnsubscriber unsub σ' = σ'.
Proof.
  apply (subscribe_at_capacity_warns_and_registers_nothing
           Sample.atMostTwo Sample.a (Callback 3) Sample.both 2).
  - reflexivity.
  - vm_compute. discriminate.
Defined.

Lemma subscribe_member_at_capacity_witness :
  let '(σ', _, unsub) := subscribe Sample.atMostTwo Sample.a Sample.f Sample.both in
  σ' = Sample.both
  ∧ unsub = NoOp
  ∧ unsub ≠ Unsubscribe Sample.a Sample.f
  ∧ Sample.f ∈ subscribersOf Sample.a (callUnsubscriber unsub σ')
  ∧ Sample.f ∉ subscribersOf Sample.a (callUnsubscriber (Unsubscribe Sample.a Sample.f) σ').
Proof.
  apply (subscribe_member_at_capacity_returns_noop
           Sample.atMostTwo Sample.a Sample.f Sample.both 2).
  - reflexivity.
  - vm_compute. discriminate.
  - vm_compute. left.
Defined.

(** C2 at [maxSubscribers = 0]: one [subscribe] on the empty registry
    leaves ["a"] mapped to an empty set, so that [getAllKeys()] holds a key
    whose subscriber count is 0. *)
Theorem subscribe_at_zero_capacity_maps_key_to_empty_set :
  let σ := (subscribe Sample.noSubscribers Sample.a Sample.f emptyRegistry).1.1 in
  getAllKeys σ = [Sample.a]
  ∧ getSubscribersCount Sample.a σ = 0
  ∧ subscribersOf Sample.a σ = [].
Proof. by vm_compute. Qed.

(** ** Well-formed registries *)

Lemma wfRegistry_empty : wfRegistry emptyRegistry.
Proof. split; simpl; constructor. Qed.

Lemma mapLive_app (m1 m2 : list (option (EventKey * nat))) :
  mapLive (m1 ++ m2) = mapLive m1 ++ mapLive m2.
Proof. apply omap_app. Qed.

Lemma mapGet_Some_value (key : EventKey) (m : list (option (EventKey * nat))) (r : nat) :
  mapGet key m = Some r → r ∈ mapValues m.
Proof.
  intros H%mapGet_Some_live. apply list_elem_of_fmap. by exists (key, r).
Qed.

Lemma NoDup_snd_inj {A B : Type} (l : list (A * B)) :
  NoDup (l.*2) → ∀ a a' b, (a, b) ∈ l → (a', b) ∈ l → a = a'.
Proof.
  induction l as [|[a0 b0] l IH]; simpl; intros Hnd a a' b Ha Ha'.
  - by apply elem_of_nil in Ha.
  - apply NoDup_cons in Hnd as [Hb0 Hnd].
    apply elem_of_cons in Ha as [Ha|Ha];
      apply elem_of_cons in Ha' as [Ha'|Ha']; simplify_eq; try done.
    + destruct Hb0. apply list_elem_of_fmap. by exists (a', b0).
    + destruct Hb0. apply list_elem_of_fmap. by exists (a, b0).
    + by eapply IH.
Qed.

(** Two keys are never mapped to the same set object. *)
Lemma wf_distinct_sets (σ : Registry) (k k' : EventKey) (r r' : nat) :
  wfRegistry σ →
  mapGet k (eventMap σ) = Some r → mapGet k' (eventMap σ) = Some r' →
  k ≠ k' → r ≠ r'.
Proof.
  intros Hwf Hk%mapGet_Some_live Hk'%mapGet_Some_live Hne ->.
  apply Hne. by eapply (NoDup_snd_inj _ (wf_values _ Hwf)).
Qed.

Lemma wf_ref_valid (σ : Registry) (k : EventKey) (r : nat) :
  wfRegistry σ → mapGet k (eventMap σ) = Some r → (r < length (store σ))%nat.
Proof.
  intros Hwf Hk%mapGet_Some_value.
  by apply (proj1 (Forall_forall _ _) (wf_refs _ Hwf)).
Qed.

Lemma NoDup_deref (σ : Registry) (r : nat) :
  wfRegistry σ → NoDup (setLive (deref (store σ) r)).
Proof.
  intros Hwf. unfold deref.
  destruct (store σ !! r) as [s|] eqn:Hs; simpl; [|apply NoDup_nil_2].
  by eapply (Forall_lookup_1 _ _ _ _ (wf_sets _ Hwf)).
Qed.

Lemma wfRegistry_ensure (key : EventKey) (σ : Registry) :
  wfRegistry σ → wfRegistry (ensure key σ).1.
Proof.
  intros Hwf. unfold ensure.
  destruct (mapGet key (eventMap σ)) as [r|] eqn:Hget; [done|]. simpl.
  rewrite mapSet_fresh by done.
  destruct Hwf as [Hkeys Hvalues Hrefs Hsets].
  split; simpl; unfold mapKeys, mapValues in *; rewrite ?mapLive_app, ?fmap_app; simpl.
  - apply NoDup_app. split; [done|]. split; [|apply NoDup_singleton].
    intros k Hk ->%list_elem_of_singleton. by apply mapGet_None_keys in Hget.
  - apply NoDup_app. split; [done|]. split; [|apply NoDup_singleton].
    intros r Hr ->%list_elem_of_singleton.
    apply (proj1 (Forall_forall _ _) Hrefs) in Hr. lia.
  - rewrite length_app. simpl. apply Forall_app. split.
    + eapply Forall_impl; [done|]. simpl. lia.
    + apply Forall_singleton. lia.
  - apply Forall_app. split; [done|]. apply Forall_singleton, NoDup_nil_2.
Qed.

Lemma wfRegistry_store (σ : Registry) (r : nat) (s : list (option Subscriber)) :
  wfRegistry σ → NoDup (setLive s) →
  wfRegistry {| eventMap := eventMap σ; store := <[r := s]> (store σ) |}.
Proof.
  intros [Hkeys Hvalues Hrefs Hsets] Hs. split; simpl; try done.
  - by rewrite length_insert.
  - by apply Forall_insert.
Qed.

Lemma wfRegistry_subscribe (config : Config) (key : EventKey) (f : Subscriber) (σ : Registry) :
  wfRegistry σ → wfRegistry (subscribe config key f σ).1.1.
Proof.
  intros Hwf%(wfRegistry_ensure key). unfold subscribe.
  destruct (ensure key σ) as [σ1 r]. simpl in Hwf.
  destruct (reached _ _); simpl; [done|].
  apply wfRegistry_store; [done|].
  rewrite setLive_setAdd. case_decide; [by apply NoDup_deref|].
  apply NoDup_app. split; [by apply NoDup_deref|]. split; [|apply NoDup_singleton].
  by intros g Hg ->%list_elem_of_singleton.
Qed.

Lemma wfRegistry_mapDelete (key : EventKey) (σ : Registry) :
  wfRegistry σ →
  wfRegistry {| eventMap := mapDelete key (eventMap σ); store := store σ |}.
Proof.
  intros [Hkeys Hvalues Hrefs Hsets].
  assert (mapLive (mapDelete key (eventMap σ)) `sublist_of` mapLive (eventMap σ)) as Hsub.
  { rewrite mapLive_mapDelete. apply sublist_filter. }
  split; simpl; unfold mapKeys, mapValues in *; try done.
  - eapply sublist_NoDup; [done|]. by apply fmap_sublist.
  - eapply sublist_NoDup; [done|]. by apply fmap_sublist.
  - apply Forall_forall. intros r Hr.
    apply (proj1 (Forall_forall _ _) Hrefs).
    eapply elem_of_sublist; [done|]. by apply fmap_sublist.
Qed.

Lemma wfRegistry_unsubscribe (key : EventKey) (f : Subscriber) (σ : Registry) :
  wfRegistry σ → wfRegistry (unsubscribe key f σ).
Proof.
  intros Hwf. unfold unsubscribe.
  destruct (mapGet key (eventMap σ)) as [r|]; [|done].
  assert (NoDup (setLive (setDelete f (deref (store σ) r)))) as Hnd.
  { rewrite setLive_setDelete. by apply NoDup_filter, NoDup_deref. }
  destruct (setSize _ =? 0).
  - apply (wfRegistry_store {| eventMap := mapDelete key (eventMap σ); store := store σ |});
      [by apply wfRegistry_mapDelete | done].
  - by apply wfRegistry_store.
Qed.

Lemma mapLive_mapClear (m : list (option (EventKey * nat))) : mapLive (mapClear m) = [].
Proof. unfold mapLive, mapClear. by induction m. Qed.

Lemma wfRegistry_clear (σ : Registry) : wfRegistry σ → wfRegistry (clear σ).
Proof.
  intros [Hkeys Hvalues Hrefs Hsets].
  split; simpl; unfold mapKeys, mapValues; rewrite ?mapLive_mapClear; simpl;
    try done; constructor.
Qed.

Lemma wfRegistry_runActions (config : Config) (l : list Action) (σ : Registry) :
  wfRegistry σ → wfRegistry (runActions config l σ).1.
Proof.
  revert σ. induction l as [|a l IH]; intros σ Hwf; [done|]. simpl.
  destruct (runAction config a σ) as [σ1 ev1] eqn:Ha.
  assert (wfRegistry (runAction config a σ).1) as Hwf1.
  { destruct a; simpl.
    - by apply wfRegistry_subscribe.
    - by apply wfRegistry_unsubscribe.
    - by apply wfRegistry_clear. }
  rewrite Ha in Hwf1. specialize (IH σ1 Hwf1). by destruct (runActions config l σ1).
Qed.

(** ** What subscribe and unsubscribe change *)

Lemma mapGet_mapDelete_ne (k k' : EventKey) (m : list (option (EventKey * nat))) :
  k' ≠ k → mapGet k' (mapDelete k m) = mapGet k' m.
Proof.
  intros Hne. unfold mapDelete. induction m as [|[[k0 r0]|] m IH]; simpl; try done.
  case_decide as Hk; simpl.
  - subst k0. rewrite decide_False by done. exact IH.
  - case_decide; [done | exact IH].
Qed.

Lemma mapKeys_mapDelete_filter (k : EventKey) (m : list (option (EventKey * nat))) :
  mapKeys (mapDelete k m) = filter (λ k', k' ≠ k) (mapKeys m).
Proof.
  unfold mapKeys. rewrite mapLive_mapDelete.
  induction (mapLive m) as [|[k0 r0] l IH]; [done|].
  rewrite fmap_cons. simpl. destruct (decide (k0 = k)) as [->|Hk].
  - rewrite !filter_cons_False; [done | by intros H | by intros H].
  - rewrite !filter_cons_True by done. by rewrite fmap_cons, IH.
Qed.

Lemma filter_absent (k : EventKey) (l : list EventKey) :
  k ∉ l → filter (λ k', k' ≠ k) l = l.
Proof.
  induction l as [|k0 l IH]; [done|]. intros [Hk0 Hl]%not_elem_of_cons.
  rewrite filter_cons_True by done. by rewrite IH.
Qed.

Lemma ensure_keys (k : EventKey) (σ : Registry) :
  getAllKeys (ensure k σ).1 =
    if decide (k ∈ getAllKeys σ) then getAllKeys σ else getAllKeys σ ++ [k].
Proof.
  unfold ensure, getAllKeys. destruct (mapGet k (eventMap σ)) as [r|] eqn:Hget; simpl.
  - rewrite decide_True; [done|].
    destruct (decide (k ∈ mapKeys (eventMap σ))) as [|Hk]; [done|].
    apply mapGet_None_keys in Hk. congruence.
  - rewrite decide_False by by apply mapGet_None_keys.
    rewrite mapSet_fresh by done. unfold mapKeys. by rewrite mapLive_app, fmap_app.
Qed.

Lemma subscribe_keys (config : Config) (k : EventKey) (f : Subscriber) (σ : Registry) :
  getAllKeys (subscribe config k f σ).1.1 =
    if decide (k ∈ getAllKeys σ) then getAllKeys σ else getAllKeys σ ++ [k].
Proof.
  rewrite <- ensure_keys. unfold subscribe.
  destruct (ensure k σ) as [σ1 r]. by destruct (reached _ _).
Qed.

(** The set of [k] after [subscribe(k, f)]. *)
Lemma subscribe_same (config : Config) (k : EventKey) (f : Subscriber) (σ : Registry) :
  wfRegistry σ →
  subscribersOf k (subscribe config k f σ).1.1 =
    if reached (getSubscribersCount k σ) (maxSubscribers config) then subscribersOf k σ
    else if decide (f ∈ subscribersOf k σ) then subscribersOf k σ
         else subscribersOf k σ ++ [f].
Proof.
  intros Hwf%(wfRegistry_ensure k). unfold subscribe.
  destruct (ensure k σ) as [σ1 r] eqn:He. simpl in Hwf.
  destruct (ensure_spec _ _ _ _ He) as (Hget & Hlive & _).
  unfold setSize. rewrite Hlive, <- count_subscribersOf.
  destruct (reached _ _); unfold subscribersOf at 1; simpl; rewrite Hget; [done|].
  rewrite deref_insert, decide_True by by eapply wf_ref_valid.
  by rewrite setLive_setAdd, Hlive.
Qed.

Lemma ensure_other (k k' : EventKey) (σ : Registry) :
  wfRegistry σ → k' ≠ k → subscribersOf k' (ensure k σ).1 = subscribersOf k' σ.
Proof.
  intros Hwf Hne. unfold ensure.
  destruct (mapGet k (eventMap σ)) as [r|] eqn:Hget; [done|].
  unfold subscribersOf. simpl. rewrite mapSet_fresh by done.
  rewrite mapGet_app. destruct (mapGet k' (eventMap σ)) as [r'|] eqn:Hget'.
  - unfold deref. rewrite lookup_app_l; [done|]. by eapply wf_ref_valid.
  - simpl. by rewrite decide_False.
Qed.

(** [subscribe(k, f)] leaves the set of every other key as it is. *)
Lemma subscribe_other (config : Config) (k k' : EventKey) (f : Subscriber) (σ : Registry) :
  wfRegistry σ → k' ≠ k →
  subscribersOf k' (subscribe config k f σ).1.1 = subscribersOf k' σ.
Proof.
  intros Hwf Hne. rewrite <- (ensure_other k k' σ) by done.
  apply (wfRegistry_ensure k) in Hwf. unfold subscribe.
  destruct (ensure k σ) as [σ1 r] eqn:He. simpl in *.
  destruct (ensure_spec _ _ _ _ He) as (Hget & _ & _).
  destruct (reached _ _); [done|]. unfold subscribersOf. simpl.
  destruct (mapGet k' (eventMap σ1)) as [r'|] eqn:Hget'; [|done].
  unfold deref. rewrite list_lookup_insert_ne; [done|].
  by eapply (wf_distinct_sets σ1 k k').
Qed.

(** The set of [k] after [unsubscribe(k, f)]. *)
Lemma unsubscribe_same (k : EventKey) (f : Subscriber) (σ : Registry) :
  wfRegistry σ →
  subscribersOf k (unsubscribe k f σ) = filter (λ g, g ≠ f) (subscribersOf k σ).
Proof.
  intros Hwf. unfold unsubscribe, subscribersOf at 2.
  destruct (mapGet k (eventMap σ)) as [r|] eqn:Hget.
  - rewrite <- setLive_setDelete. unfold setSize.
    destruct (Z.eqb_spec (Z.of_nat (length (setLive (setDelete f (deref (store σ) r))))) 0)
      as [Hz|Hz]; unfold subscribersOf; simpl.
    + rewrite mapGet_mapDelete. symmetry. apply length_zero_iff_nil. lia.
    + rewrite Hget, deref_insert, decide_True; [done|]. by eapply wf_ref_valid.
  - unfold subscribersOf. by rewrite Hget.
Qed.

(** [unsubscribe(k, f)] leaves the set of every other key as it is. *)
Lemma unsubscribe_other (k k' : EventKey) (f : Subscriber) (σ : Registry) :
  wfRegistry σ → k' ≠ k →
  subscribersOf k' (unsubscribe k f σ) = subscribersOf k' σ.
Proof.
  intros Hwf Hne. unfold unsubscribe.
  destruct (mapGet k (eventMap σ)) as [r|] eqn:Hget; [|done].
  assert (∀ m, mapGet k' m = mapGet k' (eventMap σ) →
            subscribersOf k' {| eventMap := m;
                                store := <[r := setDelete f (deref (store σ) r)]> (store σ) |}
            = subscribersOf k' σ) as Hframe.
  { intros m Hm. unfold subscribersOf. simpl. rewrite Hm.
    destruct (mapGet k' (eventMap σ)) as [r'|] eqn:Hget'; [|done].
    unfold deref. rewrite list_lookup_insert_ne; [done|].
    by eapply (wf_distinct_sets σ k k'). }
  destruct (setSize _ =? 0); apply Hframe; [by apply mapGet_mapDelete_ne | done].
Qed.

Lemma unsubscribe_keys (k : EventKey) (f : Subscriber) (σ : Registry) :
  getAllKeys (unsubscribe k f σ) =
    if decide (subscribersOf k (unsubscribe k f σ) = [])
    then filter (λ k', k' ≠ k) (getAllKeys σ)
    else getAllKeys σ.
Proof.
  unfold unsubscribe, getAllKeys.
  destruct (mapGet k (eventMap σ)) as [r|] eqn:Hget.
  - unfold setSize.
    destruct (Z.eqb_spec (Z.of_nat (length (setLive (setDelete f (deref (store σ) r))))) 0)
      as [Hz|Hz]; unfold subscribersOf; simpl.
    + rewrite mapGet_mapDelete, decide_True by done. apply mapKeys_mapDelete_filter.
    + rewrite Hget. case_decide as Hnil; [|done]. exfalso. apply Hz.
      rewrite deref_insert in Hnil. case_decide as Hr.
      * by rewrite Hnil.
      * unfold deref in Hz. rewrite lookup_ge_None_2 in Hz by lia. done.
  - unfold subscribersOf. rewrite Hget, decide_True by done.
    symmetry. by apply filter_absent, mapGet_None_keys.
Qed.

(** ** The invariant of the registry *)

Lemma count_positive_key (k : EventKey) (σ : Registry) :
  0 < getSubscribersCount k σ → k ∈ getAllKeys σ.
Proof.
  unfold getSubscribersCount, getAllKeys. intros Hpos.
  destruct (decide (k ∈ mapKeys (eventMap σ))) as [|Hk]; [done|].
  apply mapGet_None_keys in Hk. rewrite Hk in Hpos. lia.
Qed.

Lemma noEmptySets_alt (σ : Registry) :
  noEmptySets σ ↔ ∀ k, k ∈ getAllKeys σ → subscribersOf k σ ≠ [].
Proof.
  unfold noEmptySets. split.
  - intros H k Hk%H Hnil. rewrite count_subscribersOf, Hnil in Hk. simpl in Hk. lia.
  - intros H k. split; [|apply count_positive_key].
    intros Hk%H. rewrite count_subscribersOf.
    destruct (subscribersOf k σ); [done | simpl; lia].
Qed.

Lemma noEmptySets_empty : noEmptySets emptyRegistry.
Proof. apply noEmptySets_alt. intros k Hk. by apply elem_of_nil in Hk. Qed.

Lemma noEmptySets_clear (σ : Registry) : noEmptySets (clear σ).
Proof.
  apply noEmptySets_alt. intros k. unfold getAllKeys, mapKeys. simpl.
  rewrite mapLive_mapClear. by intros ?%elem_of_nil.
Qed.

Lemma noEmptySets_subscribe (config : Config) (k : EventKey) (f : Subscriber) (σ : Registry) :
  wfRegistry σ → capacityPositive config → noEmptySets σ →
  noEmptySets (subscribe config k f σ).1.1.
Proof.
  intros Hwf Hcap Hinv. pose proof (proj1 (noEmptySets_alt σ) Hinv) as Hsets.
  apply noEmptySets_alt. intros k' Hk'.
  destruct (decide (k' = k)) as [->|Hne].
  - rewrite subscribe_same by done.
    destruct (reached _ _) eqn:Hreached.
    + intros Hnil. rewrite count_subscribersOf, Hnil in Hreached.
      unfold capacityPositive in Hcap. unfold reached in Hreached.
      destruct (maxSubscribers config) as [n|]; [|done].
      apply Z.leb_le in Hreached. simpl in Hreached. lia.
    + case_decide as Hf; [by intros Hnil; rewrite Hnil in Hf; apply elem_of_nil in Hf|].
      by intros [? ?]%app_eq_nil.
  - rewrite subscribe_other by done. apply Hsets.
    rewrite subscribe_keys in Hk'. case_decide; [done|].
    apply elem_of_app in Hk' as [?|?%list_elem_of_singleton]; done.
Qed.

Lemma noEmptySets_unsubscribe (k : EventKey) (f : Subscriber) (σ : Registry) :
  wfRegistry σ → noEmptySets σ → noEmptySets (unsubscribe k f σ).
Proof.
  intros Hwf Hinv. pose proof (proj1 (noEmptySets_alt σ) Hinv) as Hsets.
  apply noEmptySets_alt. intros k' Hk'.
  rewrite unsubscribe_keys in Hk'.
  destruct (decide (k' = k)) as [->|Hne].
  - case_decide; [|done]. by apply list_elem_of_filter in Hk' as [? _].
  - rewrite unsubscribe_other by done. apply Hsets.
    case_decide; [|done]. by apply list_elem_of_filter in Hk' as [_ ?].
Qed.

(** After every sequence of [subscribe], [unsubscribe] and [clear] made
    under a configuration whose [maxSubscribers] is at least 1, from a
    well-formed registry without empty sets, the registry is well formed
    and a key is in the map exactly when it has a subscriber. *)
Lemma runActions_noEmptySets (config : Config) (l : list Action) (σ : Registry) :
  capacityPositive config → wfRegistry σ → noEmptySets σ →
  wfRegistry (runActions config l σ).1 ∧ noEmptySets (runActions config l σ).1.
Proof.
  intros Hcap. revert σ. induction l as [|a l IH]; intros σ Hwf Hinv; [done|]. simpl.
  destruct (runAction config a σ) as [σ1 ev1] eqn:Ha.
  assert (wfRegistry (runAction config a σ).1 ∧ noEmptySets (runAction config a σ).1)
    as [Hwf1 Hinv1].
  { destruct a; simpl.
    - split; [by apply wfRegistry_subscribe | by apply noEmptySets_subscribe].
    - split; [by apply wfRegistry_unsubscribe | by apply noEmptySets_unsubscribe].
    - split; [by apply wfRegistry_clear | by apply noEmptySets_clear]. }
  rewrite Ha in Hwf1, Hinv1. specialize (IH σ1 Hwf1 Hinv1).
  by destruct (runActions config l σ1).
Qed.

(** ** Further properties of the registry operations *)

Lemma setDelete_idempotent (f : Subscriber) (s : list (option Subscriber)) :
  setDelete f (setDelete f s) = setDelete f s.
Proof.
  unfold setDelete. rewrite <- list_fmap_compose. apply list_fmap_ext.
  intros i e _. simpl. destruct (decide (e = Some f)); [done|].
  by rewrite decide_False.
Qed.

(** [unsubscribe(key, callback)] a second time changes nothing, and so
    does a second call of the function that [subscribe] returned. *)
Theorem unsubscribe_idempotent (key : EventKey) (callback : Subscriber) (σ : Registry) :
  unsubscribe key callback (unsubscribe key callback σ) = unsubscribe key callback σ
  ∧ ∀ u, callUnsubscriber u (callUnsubscriber u σ) = callUnsubscriber u σ.
Proof.
  assert (∀ k f, unsubscribe k f (unsubscribe k f σ) = unsubscribe k f σ) as Hidem.
  { intros k f. unfold unsubscribe at 2 3.
    destruct (mapGet k (eventMap σ)) as [r|] eqn:Hget.
    - destruct (setSize (setDelete f (deref (store σ) r)) =? 0) eqn:Hsize.
      + unfold unsubscribe. simpl. by rewrite mapGet_mapDelete.
      + unfold unsubscribe. simpl. rewrite Hget, deref_insert.
        case_decide as Hr.
        * rewrite setDelete_idempotent, Hsize. by rewrite list_insert_insert_eq.
        * unfold deref in Hsize. rewrite lookup_ge_None_2 in Hsize by lia. done.
    - unfold unsubscribe. by rewrite Hget. }
  split; [apply Hidem|]. intros [|k f]; [done | apply Hidem].
Qed.

(** [clear()] leaves no key and no subscriber. *)
Theorem clear_removes_every_key (σ : Registry) :
  getAllKeys (clear σ) = []
  ∧ ∀ key, getSubscribersCount key (clear σ) = 0 ∧ subscribersOf key (clear σ) = [].
Proof.
  assert (getAllKeys (clear σ) = []) as Hkeys.
  { unfold getAllKeys, mapKeys. simpl. by rewrite mapLive_mapClear. }
  split; [done|]. intros key.
  assert (mapGet key (eventMap (clear σ)) = None) as Hget.
  { apply mapGet_None_keys. fold (getAllKeys (clear σ)). rewrite Hkeys.
    apply not_elem_of_nil. }
  unfold getSubscribersCount, subscribersOf. by rewrite Hget.
Qed.

(** Subscribing a callback that is a member of the set leaves the set as
    it is: a set holds a callback once. *)
Lemma subscribe_member (config : Config) (k : EventKey) (f : Subscriber) (σ : Registry) :
  wfRegistry σ → f ∈ subscribersOf k σ →
  subscribersOf k (subscribe config k f σ).1.1 = subscribersOf k σ.
Proof.
  intros Hwf Hf. rewrite subscribe_same by done.
  destruct (reached _ _); [done|]. by rewrite decide_True.
Qed.

(** Subscribing the same callback twice under a key that had no subscriber
    yields one subscriber, when [maxSubscribers] is at least 1. *)
Theorem subscribe_twice_registers_once
    (config : Config) (k : EventKey) (f : Subscriber) (σ : Registry) :
  wfRegistry σ → capacityPositive config → subscribersOf k σ = [] →
  let σ' := (subscribe config k f (subscribe config k f σ).1.1).1.1 in
  subscribersOf k σ' = [f] ∧ getSubscribersCount k σ' = 1.
Proof.
  intros Hwf Hcap Hnil.
  assert (subscribersOf k (subscribe config k f σ).1.1 = [f]) as Hone.
  { rewrite subscribe_same by done. rewrite count_subscribersOf, Hnil.
    change (Z.of_nat (length (@nil Subscriber))) with 0.
    assert (reached 0 (maxSubscribers config) = false) as ->.
    { unfold capacityPositive in Hcap. unfold reached.
      destruct (maxSubscribers config); [apply Z.leb_gt; lia | done]. }
    rewrite decide_False; [done | apply not_elem_of_nil]. }
  assert (subscribersOf k (subscribe config k f (subscribe config k f σ).1.1).1.1 = [f])
    as Htwo.
  { rewrite subscribe_member; [done | by apply wfRegistry_subscribe |].
    rewrite Hone. left. }
  simpl. split; [done|]. by rewrite count_subscribersOf, Htwo.
Qed.

Lemma subscribe_twice_registers_once_witness :
  let σ' := (subscribe defaultConfig Sample.a Sample.f
               (subscribe defaultConfig Sample.a Sample.f emptyRegistry).1.1).1.1 in
  subscribersOf Sample.a σ' = [Sample.f] ∧ getSubscribersCount Sample.a σ' = 1.
Proof.
  apply (subscribe_twice_registers_once defaultConfig Sample.a Sample.f emptyRegistry).
  - by_evaluation.
  - exact I.
  - reflexivity.
Defined.

(** After every sequence of [subscribe], [unsubscribe] and [clear] made on
    the empty registry under a configuration whose [maxSubscribers] is at
    least 1, the registry is well formed and a key is in [getAllKeys()]
    exactly when its subscriber count is positive. *)
Theorem registry_invariant_when_capacity_positive (config : Config) (l : list Action) :
  capacityPositive config →
  let σ := (runActions config l emptyRegistry).1 in
  wfRegistry σ ∧ ∀ key, key ∈ getAllKeys σ ↔ 0 < getSubscribersCount key σ.
Proof.
  intros Hcap.
  apply runActions_noEmptySets; [done | apply wfRegistry_empty | apply noEmptySets_empty].
Qed.

Lemma registry_invariant_when_capacity_positive_witness :
  let σ := (runActions defaultConfig
              [CallSubscribe Sample.a Sample.f; CallSubscribe Sample.b Sample.g;
               CallSubscribe Sample.a Sample.g; CallUnsubscribe Sample.a Sample.f]
              emptyRegistry).1 in
  wfRegistry σ ∧ ∀ key, key ∈ getAllKeys σ ↔ 0 < getSubscribersCount key σ.
Proof.
  apply (registry_invariant_when_capacity_positive defaultConfig
           [CallSubscribe Sample.a Sample.f; CallSubscribe Sample.b Sample.g;
            CallSubscribe Sample.a Sample.g; CallUnsubscribe Sample.a Sample.f]).
  exact I.
Defined.

(** Every operation on the registry keeps it well formed. *)
Theorem registry_operations_keep_well_formed
    (config : Config) (key : EventKey) (callback : Subscriber) (σ : Registry) :
  wfRegistry σ →
  wfRegistry (subscribe config key callback σ).1.1
  ∧ wfRegistry (unsubscribe key callback σ)
  ∧ wfRegistry (clear σ).
Proof.
  intros Hwf. split; [by apply wfRegistry_subscribe|].
  split; [by apply wfRegistry_unsubscribe | by apply wfRegistry_clear].
Qed.

Lemma registry_operations_keep_well_formed_witness :
  wfRegistry (subscribe defaultConfig Sample.b Sample.f Sample.both).1.1
  ∧ wfRegistry (unsubscribe Sample.b Sample.f Sample.both)
  ∧ wfRegistry (clear Sample.both).
Proof.
  apply (registry_operations_keep_well_formed defaultConfig Sample.b Sample.f Sample.both).
  by_evaluation.
Defined.

(** ** Synchronous fan-out *)

Lemma setForEach_unfold behaviour fuel config key args r index σ :
  setForEach behaviour fuel config key args r index σ =
    match deref (store σ) r !! index with
    | None => Some (σ, [])
    | Some entry =>
        match fuel with
        | O => None
        | S fuel' =>
            match entry with
            | None => setForEach behaviour fuel' config key args r (S index) σ
            | Some callback =>
                let '(σ1, ev, out) := invoke behaviour config callback args σ in
                let caught := match out with
                              | Throws error => handleError error key
                              | _ => []
                              end in
                match setForEach behaviour fuel' config key args r (S index) σ1 with
                | Some (σ2, evs) => Some (σ2, ev ++ caught ++ evs)
                | None => None
                end
            end
        end
    end.
Proof. by destruct fuel. Qed.

Lemma mapForEach_unfold behaviour fuel config args index σ :
  mapForEach behaviour fuel config args index σ =
    match eventMap σ !! index with
    | None => Some (σ, [])
    | Some entry =>
        match fuel with
        | O => None
        | S fuel' =>
            match entry with
            | None => mapForEach behaviour fuel' config args (S index) σ
            | Some (_, r) =>
                match setForEach behaviour fuel' config None args r 0 σ with
                | Some (σ1, ev) =>
                    match mapForEach behaviour fuel' config args (S index) σ1 with
                    | Some (σ2, evs) => Some (σ2, ev ++ evs)
                    | None => None
                    end
                | None => None
                end
            end
        end
    end.
Proof. by destruct fuel. Qed.

Lemma length_deref_fuelFor (σ : Registry) (r : nat) :
  (length (deref (store σ) r) ≤ max_list (length <$> store σ))%nat.
Proof.
  unfold deref. destruct (store σ !! r) as [s|] eqn:Hs; simpl; [|lia].
  apply max_list_elem_of_le, list_elem_of_fmap. exists s. split; [done|].
  by eapply list_elem_of_lookup_2.
Qed.

(** The more fuel, the same result. *)
Lemma setForEach_fuel_mono behaviour config key args r :
  ∀ fuel fuel' index σ result,
    setForEach behaviour fuel config key args r index σ = Some result →
    (fuel ≤ fuel')%nat →
    setForEach behaviour fuel' config key args r index σ = Some result.
Proof.
  induction fuel as [|fuel IH]; intros fuel' index σ result Hrun Hle;
    rewrite setForEach_unfold in Hrun; rewrite setForEach_unfold;
    destruct (deref (store σ) r !! index) as [entry|]; try done.
  destruct fuel' as [|fuel']; [lia|].
  destruct entry as [callback|].
  - destruct (invoke behaviour config callback args σ) as [[σ1 ev] out].
    destruct (setForEach behaviour fuel config key args r (S index) σ1)
      as [[σ2 evs]|] eqn:Hrest; [|done].
    by rewrite (IH fuel' _ _ _ Hrest) by lia.
  - apply IH; [exact Hrun | lia].
Qed.

Lemma mapForEach_fuel_mono behaviour config args :
  ∀ fuel fuel' index σ result,
    mapForEach behaviour fuel config args index σ = Some result →
    (fuel ≤ fuel')%nat →
    mapForEach behaviour fuel' config args index σ = Some result.
Proof.
  induction fuel as [|fuel IH]; intros fuel' index σ result Hrun Hle;
    rewrite mapForEach_unfold in Hrun; rewrite mapForEach_unfold;
    destruct (eventMap σ !! index) as [entry|]; try done.
  destruct fuel' as [|fuel']; [lia|].
  destruct entry as [[k r]|].
  - destruct (setForEach behaviour fuel config None args r 0 σ)
      as [[σ1 ev]|] eqn:Hset; [|done].
    rewrite (setForEach_fuel_mono _ _ _ _ _ _ fuel' _ _ _ Hset) by lia.
    destruct (mapForEach behaviour fuel config args (S index) σ1)
      as [[σ2 evs]|] eqn:Hrest; [|done].
    by rewrite (IH fuel' _ _ _ Hrest) by lia.
  - apply IH; [exact Hrun | lia].
Qed.

(** *** Callbacks that leave the registry alone *)

Section Quiet.

Variable behaviour : Subscriber → list Value → Body.
Hypothesis Hquiet : quiet behaviour.

Lemma invoke_quiet (config : Config) (callback : Subscriber) (args : list Value)
    (σ : Registry) :
  invoke behaviour config callback args σ =
    (σ, [Invoked callback args], outcome (behaviour callback args)).
Proof. unfold invoke. by rewrite Hquiet. Qed.

(** A [forEach] over a set visits the live entries from [index] on, in
    order, and leaves the registry as it is. *)
Lemma setForEach_quiet config key args r σ :
  ∀ fuel index,
    (length (deref (store σ) r) ≤ index + fuel)%nat →
    setForEach behaviour fuel config key args r index σ =
      Some (σ, setLive (drop index (deref (store σ) r)) ≫= delivered behaviour key args).
Proof.
  intros fuel. induction fuel as [|fuel IH]; intros index Hlen;
    rewrite setForEach_unfold;
    destruct (deref (store σ) r !! index) as [entry|] eqn:Hl.
  - apply lookup_lt_Some in Hl. lia.
  - apply lookup_ge_None_1 in Hl. by rewrite drop_ge.
  - rewrite (drop_S _ _ _ Hl). destruct entry as [callback|].
    + rewrite invoke_quiet. rewrite IH by lia. done.
    + rewrite IH by lia. done.
  - apply lookup_ge_None_1 in Hl. by rewrite drop_ge.
Qed.

(** A [forEach] over the map does so for the set of every live entry. *)
Lemma mapForEach_quiet config args σ :
  ∀ fuel index,
    (fuelFor σ ≤ index + fuel)%nat →
    mapForEach behaviour fuel config args index σ =
      Some (σ, mapLive (drop index (eventMap σ)) ≫=
                 λ kr, setLive (deref (store σ) kr.2) ≫= delivered behaviour None args).
Proof.
  intros fuel. unfold fuelFor.
  induction fuel as [|fuel IH]; intros index Hlen;
    rewrite mapForEach_unfold;
    destruct (eventMap σ !! index) as [entry|] eqn:Hl.
  - apply lookup_lt_Some in Hl. lia.
  - apply lookup_ge_None_1 in Hl. by rewrite drop_ge.
  - rewrite (drop_S _ _ _ Hl). destruct entry as [[k r]|].
    + rewrite setForEach_quiet.
      2:{ pose proof (length_deref_fuelFor σ r). apply lookup_lt_Some in Hl. lia. }
      rewrite IH by lia. done.
    + rewrite IH by lia. done.
  - apply lookup_ge_None_1 in Hl. by rewrite drop_ge.
Qed.

Lemma publishSync_quiet fuel config key args σ :
  (fuelFor σ ≤ fuel)%nat →
  publishSync behaviour fuel config key args σ =
    Some (σ, subscribersOf key σ ≫= delivered behaviour (Some key) args).
Proof.
  intros Hfuel. unfold publishSync, subscribersOf.
  destruct (mapGet key (eventMap σ)) as [r|]; [|done].
  rewrite setForEach_quiet; [done|].
  pose proof (length_deref_fuelFor σ r). unfold fuelFor in Hfuel. lia.
Qed.

Lemma publishAllSync_quiet fuel config args σ :
  (fuelFor σ ≤ fuel)%nat →
  publishAllSync behaviour fuel config args σ =
    Some (σ, mapLive (eventMap σ) ≫=
               λ kr, setLive (deref (store σ) kr.2) ≫= delivered behaviour None args).
Proof.
  intros Hfuel. unfold publishAllSync.
  rewrite mapForEach_quiet; [done|lia].
Qed.

(** The calls that [publish] and [publishAll] make leave the registry as
    it is. *)
Lemma startAll_quiet_registry config key args (l : list Subscriber) σ :
  registryAfter (startAll behaviour config key args l σ) = σ.
Proof.
  induction l as [|f l IH]; [done|].
  simpl. rewrite invoke_quiet.
  destruct (outcome (behaviour f args)); simpl; try done.
  - by destruct (promiseCatch _ _).
  - by destruct (promiseCatch _ _).
Qed.

End Quiet.

Lemma setDelete_absent (f : Subscriber) (s : list (option Subscriber)) :
  f ∉ setLive s → setDelete f s = s.
Proof.
  unfold setLive, setDelete. induction s as [|[g|] s IH]; simpl; intros Hf; try done.
  - apply not_elem_of_cons in Hf as [Hne Hf]. rewrite decide_False by congruence.
    f_equal. by apply IH.
  - f_equal. by apply IH.
Qed.

Lemma deref_Some (h : list (list (option Subscriber))) (r : nat)
    (s : list (option Subscriber)) :
  h !! r = Some s → deref h r = s.
Proof. unfold deref. by intros ->. Qed.

Lemma invocations_app (l1 l2 : list Event) :
  invocations (l1 ++ l2) = invocations l1 ++ invocations l2.
Proof. apply omap_app. Qed.

Lemma invocations_handleError (error : Value) (key : option EventKey) :
  invocations (handleError error key) = [].
Proof. unfold handleError. destruct key as [k|]; [destruct (truthy k)|]; done. Qed.

Lemma invocations_delivered behaviour key args (l : list Subscriber) :
  invocations (l ≫= delivered behaviour key args) = (λ f, (f, args)) <$> l.
Proof.
  induction l as [|f l IH]; [done|].
  rewrite bind_cons, invocations_app, IH, fmap_cons. unfold delivered.
  destruct (outcome (behaviour f args)); simpl; try done.
  by rewrite invocations_handleError.
Qed.

Lemma mapGet_of_live (m : list (option (EventKey * nat))) :
  NoDup (mapKeys m) → ∀ k r, (k, r) ∈ mapLive m → mapGet k m = Some r.
Proof.
  unfold mapKeys, mapLive. induction m as [|[[k' r']|] m IH]; simpl; intros Hnd k r Hin.
  - by apply elem_of_nil in Hin.
  - apply NoDup_cons in Hnd as [Hk' Hnd].
    apply elem_of_cons in Hin as [[= -> ->]|Hin].
    + by rewrite decide_True.
    + rewrite decide_False; [by apply IH|].
      intros ->. apply Hk', list_elem_of_fmap. by exists (k', r).
  - by apply IH.
Qed.

Lemma bind_live_keys {X : Type} (σ : Registry) (F : list Subscriber → list X) :
  NoDup (mapKeys (eventMap σ)) →
  (mapLive (eventMap σ) ≫= λ kr, F (setLive (deref (store σ) kr.2)))
  = (getAllKeys σ ≫= λ k, F (subscribersOf k σ)).
Proof.
  intros Hnd. unfold getAllKeys, mapKeys.
  pose proof (mapGet_of_live _ Hnd) as Hget.
  induction (mapLive (eventMap σ)) as [|[k r] l IH]; [done|].
  rewrite fmap_cons, !bind_cons, IH.
  - unfold subscribersOf at 2. simpl. rewrite (Hget k r); [done | left].
  - intros k' r' Hin. apply Hget. by right.
Qed.

Lemma NoDup_subscribersOf (key : EventKey) (σ : Registry) :
  wfRegistry σ → NoDup (subscribersOf key σ).
Proof.
  intros Hwf. unfold subscribersOf.
  destruct (mapGet key (eventMap σ)) as [r|]; [by apply NoDup_deref | apply NoDup_nil_2].
Qed.

Lemma invocations_bind_delivered {X : Type} behaviour key args
    (l : list X) (F : X → list Subscriber) :
  invocations (l ≫= λ x, F x ≫= delivered behaviour key args)
  = l ≫= λ x, (λ f, (f, args)) <$> F x.
Proof.
  induction l as [|x l IH]; [done|].
  by rewrite !bind_cons, invocations_app, IH, invocations_delivered.
Qed.

(** C6, as the code has it.  Provided the callbacks do not themselves call
    [subscribe], [unsubscribe] or [clear]: one [publishSync(key, ...args)]
    returns (given fuel for the entries of the registry) having called the
    subscribers of [key], each once, with [args], in insertion order,
    whatever any of them threw; and one [publishAllSync(...args)] does so
    for the set of every key, key after key. *)
Theorem publishSync_invokes_every_subscriber_in_order
    behaviour (fuel : nat) (config : Config) (key : EventKey) (args : list Value)
    (σ : Registry) :
  quiet behaviour →
  wfRegistry σ →
  (fuelFor σ ≤ fuel)%nat →
  (∃ evs, publishSync behaviour fuel config key args σ = Some (σ, evs)
          ∧ invocations evs = (λ f, (f, args)) <$> subscribersOf key σ)
  ∧ NoDup (subscribersOf key σ)
  ∧ (∃ evs, publishAllSync behaviour fuel config args σ = Some (σ, evs)
            ∧ invocations evs =
                getAllKeys σ ≫= λ k, (λ f, (f, args)) <$> subscribersOf k σ)
  ∧ NoDup (getAllKeys σ).
Proof.
  intros Hq Hwf Hfuel. repeat split.
  - eexists. split; [by apply publishSync_quiet|]. apply invocations_delivered.
  - by apply NoDup_subscribersOf.
  - eexists. split; [by apply publishAllSync_quiet|].
    rewrite <- (bind_live_keys σ (λ l, (λ f, (f, args)) <$> l)) by apply Hwf.
    apply invocations_bind_delivered.
  - apply Hwf.
Qed.

Lemma publishSync_invokes_every_subscriber_witness :
  (∃ evs, publishSync throwing 4 defaultConfig Sample.a [VNumber 42] Sample.both
            = Some (Sample.both, evs)
          ∧ invocations evs =
              (λ f, (f, [VNumber 42])) <$> subscribersOf Sample.a Sample.both)
  ∧ NoDup (subscribersOf Sample.a Sample.both)
  ∧ (∃ evs, publishAllSync throwing 4 defaultConfig [VNumber 42] Sample.both
              = Some (Sample.both, evs)
            ∧ invocations evs =
                getAllKeys Sample.both ≫=
                  λ k, (λ f, (f, [VNumber 42])) <$> subscribersOf k Sample.both)
  ∧ NoDup (getAllKeys Sample.both).
Proof.
  apply (publishSync_invokes_every_subscriber_in_order
           throwing 4 defaultConfig Sample.a [VNumber 42] Sample.both).
  - intros callback args. unfold throwing. by case_decide.
  - by_evaluation.
  - vm_compute. lia.
Defined.

(** The example of C6 in the spec: of two subscribers of ["a"] the first
    throws, and [publishSync("a", 42)] still calls the second with 42. *)
Example publishSync_second_runs_after_first_throws :
  publishSync throwing 4 defaultConfig Sample.a [VNumber 42] Sample.both =
    Some (Sample.both,
          [Invoked Sample.f [VNumber 42];
           Console Error "Error in event callback for key a:" [VError "boom"];
           Invoked Sample.g [VNumber 42]]).
Proof. by vm_compute. Qed.

(** C6, as the spec has it, fails when a callback changes the set that is
    being iterated: with the subscribers [f], [g] of ["a"], where [g]
    unsubscribes [f] and subscribes it again, one [publishSync("a", 42)]
    calls [f], [g] and then [f] a second time. *)
Lemma publishSync_revisits_resubscribed_callback :
  ¬ (∀ behaviour (fuel : nat) (config : Config) (key : EventKey) (args : list Value)
       (σ σ' : Registry) (evs : list Event),
       wfRegistry σ →
       publishSync behaviour fuel config key args σ = Some (σ', evs) →
       invocations evs = (λ f, (f, args)) <$> subscribersOf key σ).
Proof.
  intros H.
  assert (wfRegistry Sample.both) as Hwf by by_evaluation.
  specialize (H resubscribing 4%nat defaultConfig Sample.a [VNumber 42] Sample.both
                _ _ Hwf eq_refl).
  vm_compute in H. discriminate H.
Qed.

(** ** Asynchronous fan-out *)

Lemma guarded_promise (key : option EventKey) (timeout : Z) (promise : Fate) :
  let guarded := promiseCatch (withTimeout promise timeout)
                              (λ error, handleError error key) in
  fulfilledBy (timerDue timeout) guarded.1
  ∧ settledAt guarded.1 = expectedSettle (timerDue timeout) (ReturnsPromise promise)
  ∧ guarded.2 = expectedReports (timerDue timeout) key (ReturnsPromise promise).
Proof.
  intros guarded. unfold guarded.
  destruct (decide (settlesBy promise (timerDue timeout))) as [H|H].
  - rewrite withTimeout_settled by done.
    destruct promise as [t v|t e|]; simpl in *; [| |done].
    + destruct (Z.leb_spec t (timerDue timeout)); [done | lia].
    + destruct (Z.leb_spec t (timerDue timeout)); [|lia].
      split; [lia|]. done.
  - rewrite withTimeout_late by done.
    destruct promise as [t v|t e|]; simpl in *.
    + destruct (Z.leb_spec t (timerDue timeout)); [lia|]. split; [lia|]. done.
    + destruct (Z.leb_spec t (timerDue timeout)); [lia|]. split; [lia|]. done.
    + split; [lia|]. done.
Qed.

Lemma guarded_value (key : option EventKey) (timeout : Z) (v : Value) :
  let guarded := promiseCatch (withTimeout (promiseResolve v) timeout)
                              (λ error, handleError error key) in
  fulfilledBy (timerDue timeout) guarded.1
  ∧ settledAt guarded.1 = expectedSettle (timerDue timeout) (Returns v)
  ∧ guarded.2 = expectedReports (timerDue timeout) key (Returns v).
Proof.
  intros guarded. unfold guarded.
  pose proof (timerDue_positive timeout) as Hpos.
  rewrite withTimeout_settled by (simpl; lia). simpl. split; [lia|]. done.
Qed.

Lemma awaitAll_fulfilled (due : Z) (ps : list Fate) :
  0 ≤ due → Forall (fulfilledBy due) ps →
  awaitAll ps = Fulfils (foldr Z.max 0 (settledAt <$> ps)) VUndefined
  ∧ 0 ≤ foldr Z.max 0 (settledAt <$> ps) ≤ due.
Proof.
  intros Hdue Hall. unfold awaitAll.
  assert (omap rejection ps = [] ∧ existsb isPending ps = false
          ∧ 0 ≤ foldr Z.max 0 (settledAt <$> ps) ≤ due) as (-> & -> & Hmax).
  { induction Hall as [|p ps Hp Hall (IH1 & IH2 & IH3)].
    - repeat split; simpl; (done || lia).
    - destruct p as [t v| |]; try done. simpl in Hp.
      split; [exact IH1|]. split; [exact IH2|].
      rewrite fmap_cons. cbn [foldr settledAt]. lia. }
  done.
Qed.

Lemma startAll_no_throw behaviour config key args (l : list Subscriber) σ :
  noSyncThrow behaviour args →
  ∃ ps, mapped (startAll behaviour config key args l σ) = Promises ps
        ∧ Forall (fulfilledBy (timerDue (asyncTimeout config))) ps
        ∧ settledAt <$> ps =
            (λ f, expectedSettle (timerDue (asyncTimeout config))
                                 (outcome (behaviour f args))) <$> l
        ∧ laterEvents (startAll behaviour config key args l σ) =
            l ≫= λ f, expectedReports (timerDue (asyncTimeout config)) key
                                      (outcome (behaviour f args)).
Proof.
  intros Hno. revert σ. induction l as [|f l IH]; intros σ.
  - exists []. by repeat split.
  - rewrite fmap_cons, bind_cons. simpl. unfold invoke.
    destruct (runActions config (actions (behaviour f args)) σ) as [σ1 ev].
    pose proof (Hno f) as Hf.
    destruct (outcome (behaviour f args)) as [v|e|p]; [|by destruct (Hf e)|].
    + destruct (guarded_value key (asyncTimeout config) v) as (Hp & Ht & Hlate).
      destruct (promiseCatch _ _) as [p' late]. cbn [fst snd] in Hp, Ht, Hlate.
      destruct (IH σ1) as (ps & Hps & Hall & Hts & Hl). exists (p' :: ps).
      cbn [mapped laterEvents]. rewrite Hps, Hl, Hlate, fmap_cons, Hts, Ht.
      split; [done|]. split; [by constructor|]. done.
    + destruct (guarded_promise key (asyncTimeout config) p) as (Hp & Ht & Hlate).
      destruct (promiseCatch _ _) as [p' late]. cbn [fst snd] in Hp, Ht, Hlate.
      destruct (IH σ1) as (ps & Hps & Hall & Hts & Hl). exists (p' :: ps).
      cbn [mapped laterEvents]. rewrite Hps, Hl, Hlate, fmap_cons, Hts, Ht.
      split; [done|]. split; [by constructor|]. done.
Qed.

(** When no subscriber throws at the call, the promise of
    [publish(key, ...args)] is fulfilled when the last subscriber is done
    with, no later than the timer of [asyncTimeout] is due, and the
    rejections and timeouts are reported with the key. *)
Lemma publish_fulfils behaviour config key args σ :
  noSyncThrow behaviour args →
  let due := timerDue (asyncTimeout config) in
  let done_at := foldr Z.max 0 ((λ f, expectedSettle due (outcome (behaviour f args)))
                                  <$> subscribersOf key σ) in
  promiseOf (publish behaviour config key args σ) = Fulfils done_at VUndefined
  ∧ 0 ≤ done_at ≤ due
  ∧ laterEventsOf (publish behaviour config key args σ) =
      subscribersOf key σ ≫= λ f, expectedReports due (Some key) (outcome (behaviour f args)).
Proof.
  intros Hno due done_at. unfold done_at, due, publish, subscribersOf.
  pose proof (timerDue_positive (asyncTimeout config)) as Hpos.
  destruct (mapGet key (eventMap σ)) as [r|].
  - destruct (startAll_no_throw behaviour config (Some key) args
                (setLive (deref (store σ) r)) σ Hno) as (ps & Hps & Hall & Hts & Hlate).
    simpl. rewrite Hps, Hlate, <- Hts.
    destruct (awaitAll_fulfilled (timerDue (asyncTimeout config)) ps) as [H1 H2];
      [lia | done |].
    by rewrite H1.
  - simpl. split; [done|]. split; [lia | done].
Qed.

Lemma startSets_no_throw behaviour config args (sets : list nat) σ :
  noSyncThrow behaviour args →
  ∃ ps, mapped (startSets behaviour config args sets σ) = Promises ps
        ∧ Forall (fulfilledBy (timerDue (asyncTimeout config))) ps.
Proof.
  intros Hno. revert σ. induction sets as [|r sets IH]; intros σ.
  - exists []. by split.
  - simpl.
    destruct (startAll_no_throw behaviour config None args
                (setLive (deref (store σ) r)) σ Hno) as (ps1 & Hps1 & Hall1 & _).
    rewrite Hps1.
    destruct (IH (registryAfter (startAll behaviour config None args
                                   (setLive (deref (store σ) r)) σ)))
      as (ps2 & Hps2 & Hall2).
    simpl. rewrite Hps2. exists (ps1 ++ ps2). split; [done|].
    by apply Forall_app.
Qed.

(** Likewise for [publishAll(...args)]. *)
Lemma publishAll_fulfils behaviour config args σ :
  noSyncThrow behaviour args →
  ∃ t, promiseOf (publishAll behaviour config args σ) = Fulfils t VUndefined
       ∧ 0 ≤ t ≤ timerDue (asyncTimeout config).
Proof.
  intros Hno. unfold publishAll.
  pose proof (timerDue_positive (asyncTimeout config)) as Hpos.
  destruct (startSets_no_throw behaviour config args (mapValues (eventMap σ)) σ Hno)
    as (ps & Hps & Hall).
  simpl. rewrite Hps.
  destruct (awaitAll_fulfilled (timerDue (asyncTimeout config)) ps) as [H1 H2];
    [lia | done |].
  eauto.
Qed.

Lemma startSets_quiet behaviour config args (sets : list nat) σ :
  quiet behaviour → noSyncThrow behaviour args →
  registryAfter (startSets behaviour config args sets σ) = σ
  ∧ laterEvents (startSets behaviour config args sets σ) =
      sets ≫= λ r, setLive (deref (store σ) r) ≫=
                     λ f, expectedReports (timerDue (asyncTimeout config)) None
                                          (outcome (behaviour f args)).
Proof.
  intros Hq Hno. induction sets as [|r sets [IH1 IH2]]; [done|].
  simpl.
  destruct (startAll_no_throw behaviour config None args
              (setLive (deref (store σ) r)) σ Hno) as (ps1 & Hps1 & _ & _ & Hlate).
  rewrite Hps1. simpl. rewrite Hlate.
  rewrite (startAll_quiet_registry behaviour Hq config None args _ σ).
  by rewrite IH1, IH2.
Qed.

(** C10.  Provided the callbacks do not themselves call [subscribe],
    [unsubscribe] or [clear], [publishSync(key, ...args)] returns (given
    fuel for the entries of the registry) with the registry it started
    from, and [publish(key, ...args)] leaves the registry it started from:
    the registry being the same, every key has the same set of subscribers
    and the same count, and [getAllKeys()] is the same, before and after
    the call. *)
Theorem publish_leaves_registry_unchanged
    behaviour (fuel : nat) (config : Config) (key : EventKey) (args : list Value)
    (σ : Registry) :
  quiet behaviour →
  (fuelFor σ ≤ fuel)%nat →
  (∃ evs, publishSync behaviour fuel config key args σ = Some (σ, evs))
  ∧ registryOf (publish behaviour config key args σ) = σ.
Proof.
  intros Hq Hfuel. split.
  - rewrite publishSync_quiet by done. by eexists.
  - unfold publish. destruct (mapGet key (eventMap σ)); [|done].
    simpl. by apply startAll_quiet_registry.
Qed.

Lemma publish_leaves_registry_unchanged_witness :
  (∃ evs, publishSync throwing 4 defaultConfig Sample.a [VNumber 42] Sample.both
            = Some (Sample.both, evs))
  ∧ registryOf (publish throwing defaultConfig Sample.a [VNumber 42] Sample.both)
    = Sample.both.
Proof.
  apply (publish_leaves_registry_unchanged
           throwing 4 defaultConfig Sample.a [VNumber 42] Sample.both).
  - intros callback args. unfold throwing. by case_decide.
  - vm_compute. lia.
Defined.

(** With an [asyncTimeout] from 1 to 2147483647 and no subscriber that
    throws at the call, the promise of [publish(key, ...args)] is
    fulfilled, whichever subscribers reject or never settle: at the
    instant the last subscriber is done with (it returned a value, its
    promise settled, or [asyncTimeout] milliseconds passed), hence no
    later than [asyncTimeout] milliseconds after the call.  What [publish]
    reports afterwards is, for each subscriber whose promise is rejected
    within [asyncTimeout] milliseconds, the reason of the rejection at its
    instant, and for each subscriber whose promise has not settled by
    then, the timeout error after [asyncTimeout] milliseconds, each through
    [handleError] with the key, and nothing else.  The promise of
    [publishAll(...args)] is fulfilled within [asyncTimeout] milliseconds
    as well. *)
Theorem publish_fulfils_when_no_subscriber_throws
    behaviour (config : Config) (key : EventKey) (args : list Value) (σ : Registry) :
  noSyncThrow behaviour args →
  1 ≤ asyncTimeout config ≤ 2147483647 →
  (∃ t, promiseOf (publish behaviour config key args σ) = Fulfils t VUndefined
        ∧ t = foldr Z.max 0
                ((λ f, expectedSettle (asyncTimeout config) (outcome (behaviour f args)))
                   <$> subscribersOf key σ)
        ∧ 0 ≤ t ≤ asyncTimeout config)
  ∧ laterEventsOf (publish behaviour config key args σ) ≡ₚ
      (subscribersOf key σ ≫=
         λ f, expectedReports (asyncTimeout config) (Some key)
                              (outcome (behaviour f args)))
  ∧ (∃ t, promiseOf (publishAll behaviour config args σ) = Fulfils t VUndefined
          ∧ 0 ≤ t ≤ asyncTimeout config).
Proof.
  intros Hno Hrange.
  pose proof (publish_fulfils behaviour config key args σ Hno) as H.
  pose proof (publishAll_fulfils behaviour config args σ Hno) as HAll.
  rewrite (timerDue_literal (asyncTimeout config) Hrange) in H, HAll.
  destruct H as (H1 & H2 & H3).
  split; [eauto|]. split; [by rewrite H3 | done].
Qed.

Lemma publish_fulfils_when_no_subscriber_throws_witness :
  (∃ t, promiseOf (publish stalling fiftyMs Sample.a [VNumber 1] Sample.both)
          = Fulfils t VUndefined
        ∧ t = foldr Z.max 0
                ((λ f, expectedSettle (asyncTimeout fiftyMs)
                                      (outcome (stalling f [VNumber 1])))
                   <$> subscribersOf Sample.a Sample.both)
        ∧ 0 ≤ t ≤ asyncTimeout fiftyMs)
  ∧ laterEventsOf (publish stalling fiftyMs Sample.a [VNumber 1] Sample.both) ≡ₚ
      (subscribersOf Sample.a Sample.both ≫=
         λ f, expectedReports (asyncTimeout fiftyMs) (Some Sample.a)
                              (outcome (stalling f [VNumber 1])))
  ∧ (∃ t, promiseOf (publishAll stalling fiftyMs [VNumber 1] Sample.both)
            = Fulfils t VUndefined
          ∧ 0 ≤ t ≤ asyncTimeout fiftyMs).
Proof.
  apply (publish_fulfils_when_no_subscriber_throws
           stalling fiftyMs Sample.a [VNumber 1] Sample.both).
  - intros callback e. unfold stalling. by case_decide.
  - vm_compute. split; discriminate.
Defined.

(** The example of the spec: with [asyncTimeout = 50], a subscriber of
    ["a"] whose promise never settles and one whose promise is rejected
    after 5 ms, the promise of [publish("a", 1)] is fulfilled after 50 ms,
    and both failures are reported for key ["a"]. *)
Example publish_resolves_at_the_deadline :
  let run := publish stalling fiftyMs Sample.a [VNumber 1] Sample.both in
  promiseOf run = Fulfils 50 VUndefined
  ∧ laterEventsOf run =
      [(50, Console Error "Error in event callback for key a:" [TimeoutError]);
       (5, Console Error "Error in event callback for key a:" [VError "late"])].
Proof. by vm_compute. Qed.

(** With callbacks that leave the registry alone, [publishSync(key,
    ...args)] calls the subscribers of [key] in order and reports what each
    threw through [handleError] with [key], before it calls the next;
    [publishAllSync(...args)] does the same for the sets of all keys and
    reports without a key. *)
Theorem synchronous_publish_reports_each_throw
    behaviour (fuel : nat) (config : Config) (key : EventKey) (args : list Value)
    (σ : Registry) :
  quiet behaviour →
  (fuelFor σ ≤ fuel)%nat →
  publishSync behaviour fuel config key args σ =
    Some (σ, subscribersOf key σ ≫= delivered behaviour (Some key) args)
  ∧ publishAllSync behaviour fuel config args σ =
      Some (σ, mapLive (eventMap σ) ≫=
                 λ kr, setLive (deref (store σ) kr.2) ≫= delivered behaviour None args).
Proof.
  intros Hq Hfuel. split; [by apply publishSync_quiet | by apply publishAllSync_quiet].
Qed.

Lemma synchronous_publish_reports_each_throw_witness :
  publishSync throwing 4 defaultConfig Sample.a [VNumber 42] Sample.both =
    Some (Sample.both,
          subscribersOf Sample.a Sample.both ≫=
            delivered throwing (Some Sample.a) [VNumber 42])
  ∧ publishAllSync throwing 4 defaultConfig [VNumber 42] Sample.both =
      Some (Sample.both,
            mapLive (eventMap Sample.both) ≫=
              λ kr, setLive (deref (store Sample.both) kr.2) ≫=
                      delivered throwing None [VNumber 42]).
Proof.
  apply (synchronous_publish_reports_each_throw
           throwing 4 defaultConfig Sample.a [VNumber 42] Sample.both).
  - intros callback args. unfold throwing. by case_decide.
  - vm_compute. lia.
Defined.

(** With an [asyncTimeout] from 1 to 2147483647 and callbacks that leave
    the registry alone and do not throw at the call, what
    [publishAll(...args)] reports afterwards is, for each subscriber of
    each key whose promise is rejected within [asyncTimeout] milliseconds,
    the reason of the rejection at its instant, and for each whose promise
    has not settled by then, the timeout error after [asyncTimeout]
    milliseconds, each through [handleError] without a key, and nothing
    else.  (The reports are compared as a collection of reports with their
    instants; the console shows them in the order of the instants.) *)
Theorem publishAll_reports_without_key
    behaviour (config : Config) (args : list Value) (σ : Registry) :
  quiet behaviour →
  noSyncThrow behaviour args →
  1 ≤ asyncTimeout config ≤ 2147483647 →
  registryOf (publishAll behaviour config args σ) = σ
  ∧ laterEventsOf (publishAll behaviour config args σ) ≡ₚ
      (mapValues (eventMap σ) ≫=
         λ r, setLive (deref (store σ) r) ≫=
                λ f, expectedReports (asyncTimeout config) None
                                     (outcome (behaviour f args))).
Proof.
  intros Hq Hno Hrange. unfold publishAll. simpl.
  destruct (startSets_quiet behaviour config args (mapValues (eventMap σ)) σ Hq Hno)
    as [H1 H2].
  rewrite (timerDue_literal (asyncTimeout config) Hrange) in H2.
  split; [done | by rewrite H2].
Qed.

Lemma publishAll_reports_without_key_witness :
  registryOf (publishAll stalling fiftyMs [VNumber 1] Sample.both) = Sample.both
  ∧ laterEventsOf (publishAll stalling fiftyMs [VNumber 1] Sample.both) ≡ₚ
      (mapValues (eventMap Sample.both) ≫=
         λ r, setLive (deref (store Sample.both) r) ≫=
                λ f, expectedReports (asyncTimeout fiftyMs) None
                                     (outcome (stalling f [VNumber 1]))).
Proof.
  apply (publishAll_reports_without_key stalling fiftyMs [VNumber 1] Sample.both).
  - intros callback args. unfold stalling. by case_decide.
  - intros callback e. unfold stalling. by case_decide.
  - vm_compute. split; discriminate.
Defined.

(** For the subscribers of the example: both failures are reported, and
    neither report names the key. *)
Example publishAll_loses_the_key :
  laterEventsOf (publishAll stalling fiftyMs [VNumber 1] Sample.both) =
    [(50, Console Error "Error in event callback:" [TimeoutError]);
     (5, Console Error "Error in event callback:" [VError "late"])].
Proof. by vm_compute. Qed.

(** C1 at a subscriber that throws: with the subscribers [f], [g] of
    ["a"], where [f] throws when it is called, the promise of
    [publish("a", 42)] is rejected with what [f] threw and [g] is never
    called; the promise of [publishAll(42)] is rejected likewise. *)
Theorem publish_rejects_when_subscriber_throws :
  let run := publish throwing defaultConfig Sample.a [VNumber 42] Sample.both in
  let runAll := publishAll throwing defaultConfig [VNumber 42] Sample.both in
  promiseOf run = Rejects 0 (VError "boom")
  ∧ invocations (eventsOf run) = [(Sample.f, [VNumber 42])]
  ∧ promiseOf runAll = Rejects 0 (VError "boom")
  ∧ invocations (eventsOf runAll) = [(Sample.f, [VNumber 42])].
Proof. by vm_compute. Qed.

(** C7 at a subscriber that throws: in [publish("a", 42)] what [f] threw
    never reaches [handleError], with or without a key: the console stays
    empty, now and later, while [publishSync("a", 42)] reports it with the
    key and [publishAllSync(42)] without. *)
Theorem publish_does_not_report_thrown_error :
  let run := publish throwing defaultConfig Sample.a [VNumber 42] Sample.both in
  consoleOutput (eventsOf run) = []
  ∧ laterEventsOf run = []
  ∧ (consoleOutput ∘ snd <$> publishSync throwing 4 defaultConfig Sample.a [VNumber 42] Sample.both)
    = Some (handleError (VError "boom") (Some Sample.a))
  ∧ (consoleOutput ∘ snd <$> publishAllSync throwing 4 defaultConfig [VNumber 42] Sample.both)
    = Some (handleError (VError "boom") None).
Proof. by vm_compute. Qed.

(** ** What subscribe and unsubscribe do for their caller *)

Lemma subscribe_result_not_reached (config : Config) (key : EventKey)
    (callback : Subscriber) (σ : Registry) :
  reached (getSubscribersCount key σ) (maxSubscribers config) = false →
  (subscribe config key callback σ).1.2 = []
  ∧ (subscribe config key callback σ).2 = Unsubscribe key callback.
Proof.
  intros Hfree. unfold subscribe. destruct (ensure key σ) as [σ1 r] eqn:He.
  destruct (ensure_spec _ _ _ _ He) as (_ & Hlive & _).
  unfold setSize. by rewrite Hlive, <- count_subscribersOf, Hfree.
Qed.

Lemma length_filter_remove (f : Subscriber) (l : list Subscriber) :
  NoDup l → f ∈ l → length l = S (length (filter (λ g, g ≠ f) l)).
Proof.
  induction l as [|g l IH]; intros Hnd Hin; [by apply elem_of_nil in Hin|].
  apply NoDup_cons in Hnd as [Hg Hnd].
  apply elem_of_cons in Hin as [->|Hin].
  - rewrite filter_cons_False by (by intros H). simpl. f_equal.
    clear IH. induction l as [|h l IH]; [done|].
    apply not_elem_of_cons in Hg as [Hne Hg]. apply NoDup_cons in Hnd as [_ Hnd].
    rewrite filter_cons_True by done. simpl. f_equal. by apply IH.
  - rewrite filter_cons_True by (by intros ->). simpl. f_equal. by apply IH.
Qed.

Lemma filter_remove_absent (f : Subscriber) (l : list Subscriber) :
  f ∉ l → filter (λ g, g ≠ f) l = l.
Proof.
  induction l as [|g l IH]; [done|]. intros [Hne Hl]%not_elem_of_cons.
  rewrite filter_cons_True by done. by rewrite IH.
Qed.

(** Below the limit [subscribe] registers: nothing is written, the
    callback is appended to the set of its key unless it is a member, a key
    that was not in the map is appended to the keys, and the function
    returned is the closure over the key and the callback. *)
Theorem subscribe_below_capacity_registers
    (config : Config) (key : EventKey) (callback : Subscriber) (σ : Registry) :
  wfRegistry σ →
  reached (getSubscribersCount key σ) (maxSubscribers config) = false →
  let '(σ', emitted, unsub) := subscribe config key callback σ in
  emitted = []
  ∧ unsub = Unsubscribe key callback
  ∧ callback ∈ subscribersOf key σ'
  ∧ subscribersOf key σ' =
      (if decide (callback ∈ subscribersOf key σ) then subscribersOf key σ
       else subscribersOf key σ ++ [callback])
  ∧ getSubscribersCount key σ' =
      (if decide (callback ∈ subscribersOf key σ) then getSubscribersCount key σ
       else getSubscribersCount key σ + 1)
  ∧ getAllKeys σ' =
      (if decide (key ∈ getAllKeys σ) then getAllKeys σ else getAllKeys σ ++ [key]).
Proof.
  intros Hwf Hfree.
  destruct (subscribe_result_not_reached config key callback σ Hfree) as [Hev Hun].
  pose proof (subscribe_same config key callback σ Hwf) as Hsame.
  pose proof (subscribe_keys config key callback σ) as Hkeys.
  rewrite Hfree in Hsame.
  destruct (subscribe config key callback σ) as [[σ' emitted] unsub]. simpl in *.
  split; [done|]. split; [done|].
  rewrite !count_subscribersOf, Hsame.
  destruct (decide (callback ∈ subscribersOf key σ)) as [Hin|Hin].
  - split; [done|]. split; [done|]. split; done.
  - split; [apply elem_of_app; right; left|]. split; [done|]. split; [|done].
    rewrite length_app. simpl. lia.
Qed.

Lemma subscribe_below_capacity_registers_witness :
  let '(σ', emitted, unsub) := subscribe defaultConfig Sample.b Sample.f Sample.both in
  emitted = []
  ∧ unsub = Unsubscribe Sample.b Sample.f
  ∧ Sample.f ∈ subscribersOf Sample.b σ'
  ∧ subscribersOf Sample.b σ' =
      (if decide (Sample.f ∈ subscribersOf Sample.b Sample.both)
       then subscribersOf Sample.b Sample.both
       else subscribersOf Sample.b Sample.both ++ [Sample.f])
  ∧ getSubscribersCount Sample.b σ' =
      (if decide (Sample.f ∈ subscribersOf Sample.b Sample.both)
       then getSubscribersCount Sample.b Sample.both
       else getSubscribersCount Sample.b Sample.both + 1)
  ∧ getAllKeys σ' =
      (if decide (Sample.b ∈ getAllKeys Sample.both) then getAllKeys Sample.both
       else getAllKeys Sample.both ++ [Sample.b]).
Proof.
  apply (subscribe_below_capacity_registers defaultConfig Sample.b Sample.f Sample.both).
  - by_evaluation.
  - reflexivity.
Defined.

(** An instance made without [maxSubscribers] takes the default
    [Infinity]: whatever else it was given, its [subscribe] never refuses
    and never writes to the console. *)
Theorem subscribe_without_limit_always_registers
    (initialConfig : PubSubConfig) (key : EventKey) (callback : Subscriber) (σ : Registry) :
  opt_maxSubscribers initialConfig = None →
  wfRegistry σ →
  let '(σ', emitted, unsub) := subscribe (mergeConfig initialConfig) key callback σ in
  emitted = []
  ∧ unsub = Unsubscribe key callback
  ∧ callback ∈ subscribersOf key σ'
  ∧ key ∈ getAllKeys σ'.
Proof.
  intros Hnone Hwf.
  assert (∀ n, reached n (maxSubscribers (mergeConfig initialConfig)) = false) as Hfree.
  { intros n. unfold mergeConfig. simpl. by rewrite Hnone. }
  destruct (subscribe_result_not_reached (mergeConfig initialConfig) key callback σ
              (Hfree _)) as [Hev Hun].
  pose proof (subscribe_same (mergeConfig initialConfig) key callback σ Hwf) as Hsame.
  pose proof (subscribe_keys (mergeConfig initialConfig) key callback σ) as Hkeys.
  rewrite Hfree in Hsame.
  destruct (subscribe (mergeConfig initialConfig) key callback σ) as [[σ' emitted] unsub].
  simpl in *. split; [done|]. split; [done|]. split.
  - rewrite Hsame. destruct (decide (callback ∈ subscribersOf key σ)); [done|].
    apply elem_of_app. right. left.
  - rewrite Hkeys. destruct (decide (key ∈ getAllKeys σ)); [done|].
    apply elem_of_app. right. left.
Qed.

Lemma subscribe_without_limit_always_registers_witness :
  let '(σ', emitted, unsub) :=
    subscribe (mergeConfig {| opt_maxSubscribers := None; opt_logLevel := Some Debug;
                              opt_asyncTimeout := Some 5 |})
              Sample.a (Callback 7) Sample.both in
  emitted = []
  ∧ unsub = Unsubscribe Sample.a (Callback 7)
  ∧ Callback 7 ∈ subscribersOf Sample.a σ'
  ∧ Sample.a ∈ getAllKeys σ'.
Proof.
  apply (subscribe_without_limit_always_registers
           {| opt_maxSubscribers := None; opt_logLevel := Some Debug;
              opt_asyncTimeout := Some 5 |} Sample.a (Callback 7) Sample.both).
  - reflexivity.
  - by_evaluation.
Defined.

(** [subscribe] and [unsubscribe] on one key leave the subscribers, and
    the count, of every other key as they were. *)
Theorem other_keys_are_left_alone
    (config : Config) (k k' : EventKey) (f : Subscriber) (σ : Registry) :
  wfRegistry σ →
  k' ≠ k →
  subscribersOf k' (subscribe config k f σ).1.1 = subscribersOf k' σ
  ∧ getSubscribersCount k' (subscribe config k f σ).1.1 = getSubscribersCount k' σ
  ∧ subscribersOf k' (unsubscribe k f σ) = subscribersOf k' σ
  ∧ getSubscribersCount k' (unsubscribe k f σ) = getSubscribersCount k' σ.
Proof.
  intros Hwf Hne. rewrite !count_subscribersOf.
  rewrite subscribe_other, unsubscribe_other by done. done.
Qed.

Lemma other_keys_are_left_alone_witness :
  subscribersOf Sample.a (subscribe defaultConfig Sample.b Sample.f Sample.both).1.1
    = subscribersOf Sample.a Sample.both
  ∧ getSubscribersCount Sample.a (subscribe defaultConfig Sample.b Sample.f Sample.both).1.1
    = getSubscribersCount Sample.a Sample.both
  ∧ subscribersOf Sample.a (unsubscribe Sample.b Sample.f Sample.both)
    = subscribersOf Sample.a Sample.both
  ∧ getSubscribersCount Sample.a (unsubscribe Sample.b Sample.f Sample.both)
    = getSubscribersCount Sample.a Sample.both.
Proof.
  apply (other_keys_are_left_alone defaultConfig Sample.b Sample.a Sample.f Sample.both).
  - by_evaluation.
  - discriminate.
Defined.

(** [unsubscribe(key, callback)] removes that callback from the set of
    [key] and keeps the others in their order; the count drops by one when
    the callback was a member; the key leaves [getAllKeys()] exactly when
    no subscriber is left. *)
Theorem unsubscribe_removes_the_callback
    (key : EventKey) (callback : Subscriber) (σ : Registry) :
  wfRegistry σ →
  let σ' := unsubscribe key callback σ in
  subscribersOf key σ' = filter (λ g, g ≠ callback) (subscribersOf key σ)
  ∧ (callback ∉ subscribersOf key σ')
  ∧ getSubscribersCount key σ' =
      (if decide (callback ∈ subscribersOf key σ) then (getSubscribersCount key σ - 1)
       else getSubscribersCount key σ)
  ∧ getAllKeys σ' =
      (if decide (subscribersOf key σ' = []) then filter (λ k, k ≠ key) (getAllKeys σ)
       else getAllKeys σ).
Proof.
  intros Hwf. simpl.
  pose proof (unsubscribe_same key callback σ Hwf) as Hsame.
  split; [done|]. split; [|split].
  - rewrite Hsame. by intros [? _]%list_elem_of_filter.
  - rewrite !count_subscribersOf, Hsame.
    destruct (decide (callback ∈ subscribersOf key σ)) as [Hin|Hin].
    + rewrite (length_filter_remove callback (subscribersOf key σ));
        [lia | by apply NoDup_subscribersOf | done].
    + by rewrite filter_remove_absent.
  - apply unsubscribe_keys.
Qed.

Lemma unsubscribe_removes_the_callback_witness :
  let σ' := unsubscribe Sample.a Sample.f Sample.both in
  subscribersOf Sample.a σ' = filter (λ g, g ≠ Sample.f) (subscribersOf Sample.a Sample.both)
  ∧ (Sample.f ∉ subscribersOf Sample.a σ')
  ∧ getSubscribersCount Sample.a σ' =
      (if decide (Sample.f ∈ subscribersOf Sample.a Sample.both)
       then (getSubscribersCount Sample.a Sample.both - 1)
       else getSubscribersCount Sample.a Sample.both)
  ∧ getAllKeys σ' =
      (if decide (subscribersOf Sample.a σ' = [])
       then filter (λ k, k ≠ Sample.a) (getAllKeys Sample.both)
       else getAllKeys Sample.both).
Proof.
  apply (unsubscribe_removes_the_callback Sample.a Sample.f Sample.both).
  by_evaluation.
Defined.

Lemma store_unchanged (σ : Registry) (r : nat) (s : list (option Subscriber)) :
  store σ !! r = Some s →
  {| eventMap := eventMap σ; store := <[r := s]> (store σ) |} = σ.
Proof. intros Hs. rewrite list_insert_id by done. by destruct σ. Qed.

(** [unsubscribe] of a callback that is not registered under the key, or
    of a key that is not in the map, leaves the registry as it is. *)
Theorem unsubscribe_unregistered_changes_nothing
    (key : EventKey) (callback : Subscriber) (σ : Registry) :
  wfRegistry σ →
  noEmptySets σ →
  callback ∉ subscribersOf key σ →
  unsubscribe key callback σ = σ.
Proof.
  intros Hwf Hinv Hnot. unfold unsubscribe.
  destruct (mapGet key (eventMap σ)) as [r|] eqn:Hget; [|done].
  pose proof (wf_ref_valid σ key r Hwf Hget) as Hr.
  apply lookup_lt_is_Some in Hr as [s Hs].
  assert (deref (store σ) r = s) as Hderef by (unfold deref; by rewrite Hs).
  unfold subscribersOf in Hnot. rewrite Hget, Hderef in Hnot.
  rewrite Hderef, setDelete_absent by done.
  assert ((setSize s =? 0) = false) as ->; [|by apply store_unchanged].
  apply Z.eqb_neq. intros Hzero.
  assert (key ∈ getAllKeys σ) as Hkey%Hinv.
  { destruct (decide (key ∈ getAllKeys σ)) as [|Hk]; [done|].
    apply mapGet_None_keys in Hk. congruence. }
  unfold getSubscribersCount in Hkey. rewrite Hget, Hderef in Hkey. lia.
Qed.

Lemma unsubscribe_unregistered_changes_nothing_witness :
  unsubscribe Sample.a (Callback 9) Sample.both = Sample.both.
Proof.
  apply (unsubscribe_unregistered_changes_nothing Sample.a (Callback 9) Sample.both).
  - by_evaluation.
  - apply noEmptySets_alt. intros k Hk.
    vm_compute in Hk. apply list_elem_of_singleton in Hk as ->. by vm_compute.
  - by_evaluation.
Defined.



(** *** The limit on subscribers *)

Lemma reached_false_lt (size : Z) (config : Config) (n : Z) :
  maxSubscribers config = Finite n →
  reached size (maxSubscribers config) = false → size < n.
Proof. intros ->. simpl. by intros ?%Z.leb_gt. Qed.

Lemma withinLimit_subscribe (config : Config) (n : Z) (k : EventKey) (f : Subscriber)
    (σ : Registry) :
  maxSubscribers config = Finite n → wfRegistry σ → withinLimit n σ →
  withinLimit n (subscribe config k f σ).1.1.
Proof.
  intros Hmax Hwf Hlim k'. destruct (decide (k' = k)) as [->|Hne].
  - rewrite count_subscribersOf, subscribe_same by done.
    destruct (reached _ _) eqn:Hreached.
    + rewrite <- count_subscribersOf. apply Hlim.
    + apply (reached_false_lt _ _ n Hmax) in Hreached.
      case_decide; rewrite ?length_app, <- ?count_subscribersOf; [apply Hlim|].
      rewrite count_subscribersOf in Hreached. simpl. lia.
  - rewrite count_subscribersOf, subscribe_other, <- count_subscribersOf by done.
    apply Hlim.
Qed.

Lemma withinLimit_unsubscribe (n : Z) (k : EventKey) (f : Subscriber) (σ : Registry) :
  wfRegistry σ → withinLimit n σ → withinLimit n (unsubscribe k f σ).
Proof.
  intros Hwf Hlim k'. destruct (decide (k' = k)) as [->|Hne].
  - rewrite count_subscribersOf, unsubscribe_same by done.
    pose proof (Hlim k) as Hk. rewrite count_subscribersOf in Hk.
    pose proof (length_filter (λ g, g ≠ f) (subscribersOf k σ)). lia.
  - rewrite count_subscribersOf, unsubscribe_other, <- count_subscribersOf by done.
    apply Hlim.
Qed.

Lemma withinLimit_clear (n : Z) (σ : Registry) : withinLimit n (clear σ).
Proof.
  intros k. unfold getSubscribersCount.
  assert (mapGet k (eventMap (clear σ)) = None) as ->; [|lia].
  apply mapGet_None_keys. unfold mapKeys. simpl. rewrite mapLive_mapClear.
  apply not_elem_of_nil.
Qed.

Lemma withinLimit_runActions (config : Config) (n : Z) (l : list Action) (σ : Registry) :
  maxSubscribers config = Finite n → wfRegistry σ → withinLimit n σ →
  withinLimit n (runActions config l σ).1.
Proof.
  intros Hmax. revert σ. induction l as [|a l IH]; intros σ Hwf Hlim; [done|]. simpl.
  destruct (runAction config a σ) as [σ1 ev1] eqn:Ha.
  assert (wfRegistry (runAction config a σ).1 ∧ withinLimit n (runAction config a σ).1)
    as [Hwf1 Hlim1].
  { destruct a; simpl.
    - split; [by apply wfRegistry_subscribe | by apply withinLimit_subscribe].
    - split; [by apply wfRegistry_unsubscribe | by apply withinLimit_unsubscribe].
    - split; [by apply wfRegistry_clear | by apply withinLimit_clear]. }
  rewrite Ha in Hwf1, Hlim1. specialize (IH σ1 Hwf1 Hlim1).
  by destruct (runActions config l σ1).
Qed.

(** Under an instance with a finite [maxSubscribers], no sequence of
    [subscribe], [unsubscribe] and [clear] on the empty registry gives a
    key more subscribers than [maxSubscribers] (none at all when the limit
    is zero or negative). *)
Theorem subscriber_count_never_exceeds_limit
    (config : Config) (n : Z) (l : list Action) (key : EventKey) :
  maxSubscribers config = Finite n →
  getSubscribersCount key (runActions config l emptyRegistry).1 ≤ Z.max 0 n.
Proof.
  intros Hmax. revert key.
  apply (withinLimit_runActions config n l emptyRegistry Hmax wfRegistry_empty).
  intros key. unfold getSubscribersCount. simpl. lia.
Qed.

Lemma subscriber_count_never_exceeds_limit_witness :
  getSubscribersCount Sample.a
    (runActions Sample.atMostTwo
       [CallSubscribe Sample.a Sample.f; CallSubscribe Sample.a Sample.g;
        CallSubscribe Sample.a (Callback 3)] emptyRegistry).1 ≤ Z.max 0 2.
Proof.
  apply (subscriber_count_never_exceeds_limit Sample.atMostTwo 2
           [CallSubscribe Sample.a Sample.f; CallSubscribe Sample.a Sample.g;
            CallSubscribe Sample.a (Callback 3)] Sample.a).
  reflexivity.
Defined.

(** ** What the publish functions do for their caller *)

Lemma invocations_log (level : Level) (message : string) (config : Config) :
  invocations (log level message config) = [].
Proof. unfold log. by destruct (isLog level config). Qed.

Lemma invocations_subscribe (config : Config) (key : EventKey) (f : Subscriber) (σ : Registry) :
  invocations (subscribe config key f σ).1.2 = [].
Proof.
  unfold subscribe. destruct (ensure key σ) as [σ1 r].
  destruct (reached _ _); [apply invocations_log | done].
Qed.

Lemma invocations_runActions (config : Config) (l : list Action) (σ : Registry) :
  invocations (runActions config l σ).2 = [].
Proof.
  revert σ. induction l as [|a l IH]; intros σ; [done|]. simpl.
  destruct (runAction config a σ) as [σ1 ev1] eqn:Ha.
  specialize (IH σ1). destruct (runActions config l σ1) as [σ2 ev2]. simpl in *.
  rewrite invocations_app, IH, app_nil_r.
  destruct a; simpl in Ha.
  - pose proof (invocations_subscribe config key callback σ) as H.
    destruct (subscribe config key callback σ) as [[? ?] ?]. simpl in *. by simplify_eq.
  - by simplify_eq.
  - by simplify_eq.
Qed.

Lemma invocations_invoke behaviour config f args σ :
  invocations (invoke behaviour config f args σ).1.2 = [(f, args)].
Proof.
  unfold invoke.
  pose proof (invocations_runActions config (actions (behaviour f args)) σ) as H.
  destruct (runActions _ _ _) as [σ' ev]. simpl in *.
  unfold invocations in *. simpl. by rewrite H.
Qed.

Lemma invoke_outcome behaviour config f args σ :
  (invoke behaviour config f args σ).2 = outcome (behaviour f args).
Proof. unfold invoke. by destruct (runActions _ _ _). Qed.

(** What [map] has called when it ends: every callback of the copy, or
    the callbacks up to the first one that threw. *)
Lemma startAll_invocations behaviour config key args (l : list Subscriber) σ :
  noSyncThrow behaviour args →
  invocations (events (startAll behaviour config key args l σ)) = (λ f, (f, args)) <$> l.
Proof.
  intros Hno. revert σ. induction l as [|f l IH]; intros σ; [done|].
  cbn [startAll].
  pose proof (invocations_invoke behaviour config f args σ) as Hinv.
  pose proof (invoke_outcome behaviour config f args σ) as Hout.
  pose proof (Hno f) as Hf.
  destruct (invoke behaviour config f args σ) as [[σ1 ev] out]. simpl in Hinv, Hout.
  subst out.
  destruct (outcome (behaviour f args)) as [v|e|p]; [|by destruct (Hf e)|].
  - destruct (promiseCatch _ _). cbn [events]. by rewrite invocations_app, Hinv, IH.
  - destruct (promiseCatch _ _). cbn [events]. by rewrite invocations_app, Hinv, IH.
Qed.

Lemma startAll_first_throw behaviour config key args (l1 l2 : list Subscriber)
    (f : Subscriber) (e : Value) σ :
  (∀ g, g ∈ l1 → ∀ e', outcome (behaviour g args) ≠ Throws e') →
  outcome (behaviour f args) = Throws e →
  mapped (startAll behaviour config key args (l1 ++ f :: l2) σ) = Threw e
  ∧ invocations (events (startAll behaviour config key args (l1 ++ f :: l2) σ))
    = (λ g, (g, args)) <$> (l1 ++ [f]).
Proof.
  intros Hl1 Hf. revert σ. induction l1 as [|g l1 IH]; intros σ.
  - cbn [app startAll].
    pose proof (invocations_invoke behaviour config f args σ) as Hinv.
    pose proof (invoke_outcome behaviour config f args σ) as Hout.
    destruct (invoke behaviour config f args σ) as [[σ1 ev] out]. simpl in Hinv, Hout.
    subst out. rewrite Hf. by cbn [mapped events].
  - rewrite <- !app_comm_cons. cbn [startAll].
    pose proof (invocations_invoke behaviour config g args σ) as Hinv.
    pose proof (invoke_outcome behaviour config g args σ) as Hout.
    assert (∀ e', outcome (behaviour g args) ≠ Throws e') as Hg by (apply Hl1; left).
    destruct (invoke behaviour config g args σ) as [[σ1 ev] out]. simpl in Hinv, Hout.
    subst out.
    destruct (IH (λ g' Hg', Hl1 g' (list_elem_of_further _ _ _ Hg')) σ1) as [Hm Hi].
    destruct (outcome (behaviour g args)) as [v|e'|p]; [|by destruct (Hg e')|].
    + destruct (promiseCatch _ _). cbn [mapped events].
      rewrite Hm, invocations_app, Hinv, Hi. by rewrite fmap_cons.
    + destruct (promiseCatch _ _). cbn [mapped events].
      rewrite Hm, invocations_app, Hinv, Hi. by rewrite fmap_cons.
Qed.

(** [publish(key, ...args)] works on a copy of the set taken when it is
    called: whatever the callbacks subscribe, unsubscribe or clear while
    they run, it calls the callbacks that were subscribed to [key] at the
    call, each once, in their order (none of them throwing). *)
Theorem publish_calls_the_subscribers_at_the_call
    behaviour (config : Config) (key : EventKey) (args : list Value) (σ : Registry) :
  noSyncThrow behaviour args →
  invocations (eventsOf (publish behaviour config key args σ)) =
    (λ f, (f, args)) <$> subscribersOf key σ.
Proof.
  intros Hno. unfold publish, subscribersOf.
  destruct (mapGet key (eventMap σ)) as [r|]; [|done].
  simpl. by apply startAll_invocations.
Qed.

(** When a subscriber throws at the call, the promise of
    [publish(key, ...args)] is rejected with what the first such
    subscriber threw, and the subscribers after it are never called. *)
Theorem publish_rejects_with_first_thrown_error
    behaviour (config : Config) (key : EventKey) (args : list Value) (σ : Registry)
    (before after : list Subscriber) (f : Subscriber) (e : Value) :
  subscribersOf key σ = before ++ f :: after →
  (∀ g, g ∈ before → ∀ e', outcome (behaviour g args) ≠ Throws e') →
  outcome (behaviour f args) = Throws e →
  promiseOf (publish behaviour config key args σ) = Rejects 0 e
  ∧ invocations (eventsOf (publish behaviour config key args σ)) =
      (λ g, (g, args)) <$> (before ++ [f]).
Proof.
  intros Hsubs Hbefore Hf. unfold publish, subscribersOf in *.
  destruct (mapGet key (eventMap σ)) as [r|]; [|by destruct before].
  rewrite Hsubs. simpl.
  destruct (startAll_first_throw behaviour config (Some key) args before after f e σ
              Hbefore Hf) as [-> ->].
  done.
Qed.

Lemma publish_calls_the_subscribers_at_the_call_witness :
  invocations (eventsOf (publish resubscribing defaultConfig Sample.a [VNumber 42] Sample.both))
  = (λ f, (f, [VNumber 42])) <$> subscribersOf Sample.a Sample.both.
Proof.
  apply (publish_calls_the_subscribers_at_the_call
           resubscribing defaultConfig Sample.a [VNumber 42] Sample.both).
  intros callback e. unfold resubscribing. by case_decide.
Defined.

Lemma publish_rejects_with_first_thrown_error_witness :
  promiseOf (publish throwing defaultConfig Sample.a [VNumber 42] Sample.both)
    = Rejects 0 (VError "boom")
  ∧ invocations (eventsOf (publish throwing defaultConfig Sample.a [VNumber 42] Sample.both))
    = (λ g, (g, [VNumber 42])) <$> ([] ++ [Sample.f]).
Proof.
  apply (publish_rejects_with_first_thrown_error
           throwing defaultConfig Sample.a [VNumber 42] Sample.both
           [] [Sample.g] Sample.f (VError "boom")).
  - reflexivity.
  - intros g Hg. by apply elem_of_nil in Hg.
  - reflexivity.
Defined.

(** A [forEach] over entries that are all empty calls nobody. *)
Lemma setForEach_no_live behaviour config key args r σ :
  ∀ fuel index,
    setLive (drop index (deref (store σ) r)) = [] →
    (length (deref (store σ) r) ≤ index + fuel)%nat →
    setForEach behaviour fuel config key args r index σ = Some (σ, []).
Proof.
  induction fuel as [|fuel IH]; intros index Hlive Hlen;
    rewrite setForEach_unfold;
    destruct (deref (store σ) r !! index) as [entry|] eqn:Hl; try done.
  - apply lookup_lt_Some in Hl. lia.
  - rewrite (drop_S _ _ _ Hl) in Hlive. destruct entry as [f|]; [done|].
    apply IH; [exact Hlive | lia].
Qed.

(** Publishing to a key that has no subscriber, in the map or not, calls
    nobody and writes nothing, whatever the callbacks of other keys are:
    [publishSync] returns with the registry as it was, and the promise of
    [publish] is fulfilled at once. *)
Theorem publish_without_subscribers_does_nothing
    behaviour (fuel : nat) (config : Config) (key : EventKey) (args : list Value)
    (σ : Registry) :
  subscribersOf key σ = [] →
  (fuelFor σ ≤ fuel)%nat →
  publishSync behaviour fuel config key args σ = Some (σ, [])
  ∧ publish behaviour config key args σ =
      {| registryOf := σ; eventsOf := []; laterEventsOf := [];
         promiseOf := Fulfils 0 VUndefined |}.
Proof.
  intros Hnone Hfuel. unfold publishSync, publish, subscribersOf in *.
  destruct (mapGet key (eventMap σ)) as [r|]; [|done].
  rewrite Hnone. split; [|done].
  apply setForEach_no_live; [by rewrite drop_0|].
  pose proof (length_deref_fuelFor σ r). unfold fuelFor in Hfuel. lia.
Qed.

Lemma publish_without_subscribers_does_nothing_witness :
  publishSync throwing 4 defaultConfig Sample.b [VNumber 42] Sample.both
    = Some (Sample.both, [])
  ∧ publish throwing defaultConfig Sample.b [VNumber 42] Sample.both =
      {| registryOf := Sample.both; eventsOf := []; laterEventsOf := [];
         promiseOf := Fulfils 0 VUndefined |}.
Proof.
  apply (publish_without_subscribers_does_nothing
           throwing 4 defaultConfig Sample.b [VNumber 42] Sample.both).
  - reflexivity.
  - vm_compute. lia.
Defined.

Lemma mapForEach_no_live behaviour config args σ :
  ∀ fuel index,
    mapLive (drop index (eventMap σ)) = [] →
    (length (eventMap σ) ≤ index + fuel)%nat →
    mapForEach behaviour fuel config args index σ = Some (σ, []).
Proof.
  induction fuel as [|fuel IH]; intros index Hlive Hlen;
    rewrite mapForEach_unfold;
    destruct (eventMap σ !! index) as [entry|] eqn:Hl; try done.
  - apply lookup_lt_Some in Hl. lia.
  - rewrite (drop_S _ _ _ Hl) in Hlive. destruct entry as [[k r]|]; [done|].
    apply IH; [exact Hlive | lia].
Qed.

Lemma mapLive_drop_mapClear (m : list (option (EventKey * nat))) (i : nat) :
  mapLive (drop i (mapClear m)) = [].
Proof.
  unfold mapClear. rewrite <- fmap_drop. apply mapLive_mapClear.
Qed.

(** After [clear()] no publish function reaches a callback that was
    subscribed before: the synchronous ones return having called nobody,
    the promises of the asynchronous ones are fulfilled at once, and the
    registry stays empty. *)
Theorem clear_then_publish_reaches_nobody
    behaviour (fuel : nat) (config : Config) (key : EventKey) (args : list Value)
    (σ : Registry) :
  (length (eventMap σ) ≤ fuel)%nat →
  publishSync behaviour fuel config key args (clear σ) = Some (clear σ, [])
  ∧ publishAllSync behaviour fuel config args (clear σ) = Some (clear σ, [])
  ∧ publish behaviour config key args (clear σ) =
      {| registryOf := clear σ; eventsOf := []; laterEventsOf := [];
         promiseOf := Fulfils 0 VUndefined |}
  ∧ publishAll behaviour config args (clear σ) =
      {| registryOf := clear σ; eventsOf := []; laterEventsOf := [];
         promiseOf := Fulfils 0 VUndefined |}.
Proof.
  intros Hfuel.
  assert (mapGet key (eventMap (clear σ)) = None) as Hget.
  { apply mapGet_None_keys. unfold mapKeys. simpl. rewrite mapLive_mapClear.
    apply not_elem_of_nil. }
  unfold publishSync, publish. rewrite Hget.
  split; [done|]. split; [|split; [done|]].
  - unfold publishAllSync. apply mapForEach_no_live.
    + simpl. apply mapLive_drop_mapClear.
    + simpl. unfold mapClear. rewrite length_fmap. lia.
  - unfold publishAll, mapValues. simpl. by rewrite mapLive_mapClear.
Qed.

Lemma clear_then_publish_reaches_nobody_witness :
  publishSync throwing 1 defaultConfig Sample.a [] (clear Sample.both)
    = Some (clear Sample.both, [])
  ∧ publishAllSync throwing 1 defaultConfig [] (clear Sample.both)
    = Some (clear Sample.both, [])
  ∧ publish throwing defaultConfig Sample.a [] (clear Sample.both) =
      {| registryOf := clear Sample.both; eventsOf := []; laterEventsOf := [];
         promiseOf := Fulfils 0 VUndefined |}
  ∧ publishAll throwing defaultConfig [] (clear Sample.both) =
      {| registryOf := clear Sample.both; eventsOf := []; laterEventsOf := [];
         promiseOf := Fulfils 0 VUndefined |}.
Proof.
  apply (clear_then_publish_reaches_nobody throwing 1 defaultConfig Sample.a []
           Sample.both).
  vm_compute. lia.
Defined.

Lemma handleError_falsy_key (error : Value) (key : EventKey) :
  truthy key = false → handleError error (Some key) = handleError error None.
Proof. intros H. unfold handleError. by rewrite H. Qed.

Lemma delivered_falsy_key behaviour (key : EventKey) (args : list Value) (f : Subscriber) :
  truthy key = false →
  delivered behaviour (Some key) args f = delivered behaviour None args f.
Proof.
  intros H. unfold delivered.
  destruct (outcome (behaviour f args)); try done. by rewrite handleError_falsy_key.
Qed.

Lemma expectedReports_falsy_key (deadline : Z) (key : EventKey) (out : Outcome) :
  truthy key = false →
  expectedReports deadline (Some key) out = expectedReports deadline None out.
Proof.
  intros H. unfold expectedReports.
  destruct out as [v|e|[t v|t e|]]; cbn zeta; try done;
    by rewrite !(handleError_falsy_key _ key H).
Qed.

(** For the keys [0] and [""] the report of a failure does not name the
    key, since [handleError] tests [if (key)].  With callbacks that leave
    the registry alone, [publishSync(key, ...args)] reports what each
    subscriber of such a key threw as [publishAllSync] would, without the
    key.  With an [asyncTimeout] from 1 to 2147483647 and callbacks that do
    not throw at the call, the reports of [publish(key, ...args)] for the
    subscribers of such a key, the rejections within [asyncTimeout]
    milliseconds and the timeouts, are the reports without a key. *)
Theorem falsy_key_is_not_reported
    (sync async : Subscriber → list Value → Body)
    (fuel : nat) (config : Config) (key : EventKey) (args : list Value)
    (σ : Registry) :
  quiet sync →
  (fuelFor σ ≤ fuel)%nat →
  truthy key = false →
  noSyncThrow async args →
  1 ≤ asyncTimeout config ≤ 2147483647 →
  (key = KNum 0 ∨ key = KStr "")
  ∧ (∀ error, handleError error (Some key) = [Console Error "Error in event callback:" [error]])
  ∧ publishSync sync fuel config key args σ =
      Some (σ, subscribersOf key σ ≫= delivered sync None args)
  ∧ laterEventsOf (publish async config key args σ) ≡ₚ
      (subscribersOf key σ ≫=
         λ f, expectedReports (asyncTimeout config) None (outcome (async f args))).
Proof.
  intros Hq Hfuel Hfalsy Hno Hrange. split; [|split; [|split]].
  - destruct key as [s|n]; simpl in Hfalsy.
    + right. apply negb_false_iff, bool_decide_eq_true in Hfalsy. by subst.
    + left. apply negb_false_iff, Z.eqb_eq in Hfalsy. by subst.
  - intros error. by rewrite handleError_falsy_key.
  - rewrite publishSync_quiet by done. f_equal. f_equal.
    induction (subscribersOf key σ) as [|f l IH]; [done|].
    by rewrite !bind_cons, IH, delivered_falsy_key.
  - destruct (publish_fulfils async config key args σ Hno) as (_ & _ & ->).
    rewrite (timerDue_literal (asyncTimeout config) Hrange).
    induction (subscribersOf key σ) as [|f l IH]; [done|].
    rewrite !bind_cons, expectedReports_falsy_key by done.
    by apply Permutation_app_head.
Qed.

Lemma falsy_key_is_not_reported_witness :
  (KNum 0 = KNum 0 ∨ KNum 0 = KStr "")
  ∧ (∀ error, handleError error (Some (KNum 0))
              = [Console Error "Error in event callback:" [error]])
  ∧ publishSync throwing 4 fiftyMs (KNum 0) [VNumber 1] Sample.atZero =
      Some (Sample.atZero,
            subscribersOf (KNum 0) Sample.atZero ≫= delivered throwing None [VNumber 1])
  ∧ laterEventsOf (publish stalling fiftyMs (KNum 0) [VNumber 1] Sample.atZero) ≡ₚ
      (subscribersOf (KNum 0) Sample.atZero ≫=
         λ f, expectedReports (asyncTimeout fiftyMs) None
                              (outcome (stalling f [VNumber 1]))).
Proof.
  apply (falsy_key_is_not_reported throwing stalling 4 fiftyMs (KNum 0) [VNumber 1]
           Sample.atZero).
  - intros callback args. unfold throwing. by case_decide.
  - vm_compute. lia.
  - reflexivity.
  - intros callback e. unfold stalling. by case_decide.
  - vm_compute. split; discriminate.
Defined.

(** With the subscribers [f], [g] of the key [0]: what [f] throws in
    [publishSync(0, 1)], and the timeout of [f] and the rejection of [g]
    in [publish(0, 1)], are reported without the key. *)
Example falsy_key_reports :
  (consoleOutput ∘ snd) <$> publishSync throwing 4 fiftyMs (KNum 0) [VNumber 1] Sample.atZero
    = Some [Console Error "Error in event callback:" [VError "boom"]]
  ∧ laterEventsOf (publish stalling fiftyMs (KNum 0) [VNumber 1] Sample.atZero) =
      [(50, Console Error "Error in event callback:" [TimeoutError]);
       (5, Console Error "Error in event callback:" [VError "late"])].
Proof. by vm_compute. Qed.

Lemma consoleOutput_app (l1 l2 : list Event) :
  consoleOutput (l1 ++ l2) = consoleOutput l1 ++ consoleOutput l2.
Proof. apply omap_app. Qed.

Lemma consoleOutput_delivered behaviour key args (l : list Subscriber) :
  noSyncThrow behaviour args →
  consoleOutput (l ≫= delivered behaviour key args) = [].
Proof.
  intros Hno. induction l as [|f l IH]; [done|].
  rewrite bind_cons, consoleOutput_app, IH, app_nil_r. unfold delivered.
  pose proof (Hno f) as Hf.
  destruct (outcome (behaviour f args)) as [v|e|p]; [done|by destruct (Hf e)|done].
Qed.

(** [publishSync] and [publishAllSync] do not wait for what a callback
    returned and attach no handler to it: with callbacks that leave the
    registry alone and do not throw at the call, nothing is written to the
    console, also when the promises they return are rejected. *)
Theorem synchronous_publish_ignores_returned_promises
    behaviour (fuel : nat) (config : Config) (key : EventKey) (args : list Value)
    (σ : Registry) :
  quiet behaviour →
  noSyncThrow behaviour args →
  (fuelFor σ ≤ fuel)%nat →
  (∃ evs, publishSync behaviour fuel config key args σ = Some (σ, evs)
          ∧ consoleOutput evs = []
          ∧ invocations evs = (λ f, (f, args)) <$> subscribersOf key σ)
  ∧ (∃ evs, publishAllSync behaviour fuel config args σ = Some (σ, evs)
            ∧ consoleOutput evs = []).
Proof.
  intros Hq Hno Hfuel. split.
  - eexists. split; [by apply publishSync_quiet|].
    split; [by apply consoleOutput_delivered | apply invocations_delivered].
  - eexists. split; [by apply publishAllSync_quiet|].
    induction (mapLive (eventMap σ)) as [|kr l IH]; [done|].
    by rewrite bind_cons, consoleOutput_app, IH, consoleOutput_delivered.
Qed.

Lemma synchronous_publish_ignores_returned_promises_witness :
  (∃ evs, publishSync stalling 4 defaultConfig Sample.a [VNumber 1] Sample.both
            = Some (Sample.both, evs)
          ∧ consoleOutput evs = []
          ∧ invocations evs = (λ f, (f, [VNumber 1])) <$> subscribersOf Sample.a Sample.both)
  ∧ (∃ evs, publishAllSync stalling 4 defaultConfig [VNumber 1] Sample.both
              = Some (Sample.both, evs)
            ∧ consoleOutput evs = []).
Proof.
  apply (synchronous_publish_ignores_returned_promises
           stalling 4 defaultConfig Sample.a [VNumber 1] Sample.both).
  - intros callback args. unfold stalling. by case_decide.
  - intros callback e. unfold stalling. by case_decide.
  - vm_compute. lia.
Defined.

(** *** A callback that keeps the iteration going *)

Lemma elem_of_setLive (f : Subscriber) (s : list (option Subscriber)) :
  f ∈ setLive s ↔ Some f ∈ s.
Proof.
  unfold setLive. rewrite list_elem_of_omap. split.
  - intros (x & Hx & Hid). unfold id in Hid. by subst.
  - intros H. by exists (Some f).
Qed.

Lemma invoke_no_actions behaviour config callback args σ :
  actions (behaviour callback args) = [] →
  invoke behaviour config callback args σ =
    (σ, [Invoked callback args], outcome (behaviour callback args)).
Proof. intros H. unfold invoke. by rewrite H. Qed.

Section Resubscribe.

Variable behaviour : Subscriber → list Value → Body.
Variable config : Config.
Variable key : EventKey.
Variables f g : Subscriber.
Variable args : list Value.

Hypothesis Hunlimited : maxSubscribers config = Infinity.
Hypothesis Hf : actions (behaviour f args) = [CallUnsubscribe key f; CallSubscribe key f].
Hypothesis Hothers : ∀ h, h ≠ f → actions (behaviour h args) = [].
Hypothesis Hfg : g ≠ f.

(** One visit of [f]: its entry is emptied and a new one is appended. *)
Lemma invoke_resubscribe (m : list (option (EventKey * nat)))
    (h : list (list (option Subscriber))) (r : nat) (s : list (option Subscriber)) :
  mapGet key m = Some r →
  h !! r = Some s →
  g ∈ setLive s →
  (invoke behaviour config f args {| eventMap := m; store := h |}).1.1
  = {| eventMap := m; store := <[r := setDelete f s ++ [Some f]]> h |}.
Proof.
  intros Hget Hs Hg. unfold invoke. rewrite Hf.
  cbn [runActions runAction].
  assert (g ∈ setLive (setDelete f s)) as Hg'.
  { rewrite setLive_setDelete. by apply list_elem_of_filter. }
  assert (f ∉ setLive (setDelete f s)) as Hf'.
  { rewrite setLive_setDelete. by intros [? _]%list_elem_of_filter. }
  assert (unsubscribe key f {| eventMap := m; store := h |}
          = {| eventMap := m; store := <[r := setDelete f s]> h |}) as ->.
  { unfold unsubscribe. cbn [eventMap store]. rewrite Hget, (deref_Some _ _ _ Hs).
    assert ((setSize (setDelete f s) =? 0) = false) as ->; [|done].
    apply Z.eqb_neq. unfold setSize.
    destruct (setLive (setDelete f s)); [by apply elem_of_nil in Hg' | simpl; lia]. }
  unfold subscribe, ensure. cbn [eventMap store]. rewrite Hget. cbv beta iota zeta.
  cbn [eventMap store].
  rewrite deref_insert, decide_True by by eapply lookup_lt_Some.
  rewrite Hunlimited. cbn [reached]. unfold setAdd. rewrite decide_False by done.
  cbn [eventMap store fst]. by rewrite list_insert_insert_eq.
Qed.

(** While [f] has a live entry at or after [index], the [forEach] cannot
    reach the end of the entries. *)
Lemma setForEach_resubscribe (k : option EventKey) (m : list (option (EventKey * nat)))
    (r : nat) :
  mapGet key m = Some r →
  ∀ fuel index (s : list (option Subscriber)) (h : list (list (option Subscriber))),
    h !! r = Some s →
    Some f ∈ drop index s →
    g ∈ setLive s →
    setForEach behaviour fuel config k args r index {| eventMap := m; store := h |} = None.
Proof.
  intros Hget. induction fuel as [|fuel IH]; intros index s h Hs Hahead Hg;
    rewrite setForEach_unfold; cbn [store]; rewrite (deref_Some _ _ _ Hs);
    destruct (s !! index) as [entry|] eqn:Hl.
  - done.
  - apply lookup_ge_None_1 in Hl. rewrite drop_ge in Hahead by done.
    by apply elem_of_nil in Hahead.
  - rewrite (drop_S _ _ _ Hl) in Hahead.
    destruct entry as [c|].
    + destruct (decide (c = f)) as [->|Hc].
      * pose proof (invoke_resubscribe m h r s Hget Hs Hg) as Hinv.
        destruct (invoke behaviour config f args {| eventMap := m; store := h |})
          as [[σ1 ev] out]. simpl in Hinv. subst σ1.
        rewrite (IH (S index) (setDelete f s ++ [Some f])); [done| | |].
        -- rewrite list_lookup_insert_eq; [done | by eapply lookup_lt_Some].
        -- rewrite drop_app_le.
           ++ apply elem_of_app. right. left.
           ++ unfold setDelete. rewrite length_fmap. apply lookup_lt_Some in Hl. lia.
        -- rewrite setLive_app. apply elem_of_app. left.
           rewrite setLive_setDelete. by apply list_elem_of_filter.
      * rewrite invoke_no_actions by by apply Hothers.
        rewrite (IH (S index) s h); [done | done | | done].
        apply elem_of_cons in Hahead as [[= ->]|Hahead]; done.
    + apply (IH (S index) s h); [done | | done].
      apply elem_of_cons in Hahead as [|Hahead]; done.
  - apply lookup_ge_None_1 in Hl. rewrite drop_ge in Hahead by done.
    by apply elem_of_nil in Hahead.
Qed.

Lemma publishSync_resubscribe (fuel : nat) (σ : Registry) :
  f ∈ subscribersOf key σ →
  g ∈ subscribersOf key σ →
  publishSync behaviour fuel config key args σ = None.
Proof.
  unfold publishSync, subscribersOf. intros Hinf Hing.
  destruct (mapGet key (eventMap σ)) as [r|] eqn:Hget; [|by apply elem_of_nil in Hinf].
  unfold deref in Hinf, Hing.
  destruct (store σ !! r) as [s|] eqn:Hs; [|by apply elem_of_nil in Hinf].
  simpl in Hinf, Hing. destruct σ as [m h]. simpl in *.
  apply (setForEach_resubscribe (Some key) m r Hget fuel 0 s h); [done| |done].
  rewrite drop_0. by apply elem_of_setLive.
Qed.

End Resubscribe.

(** [publishSync] iterates over the live set.  When a subscriber [f] of
    the key unsubscribes itself and subscribes itself again each time it
    is called, under an instance without a limit, and the key has another
    subscriber (the other callbacks leaving the registry alone),
    [publishSync] does not return: no amount of fuel lets the [forEach]
    end. *)
Theorem publishSync_never_returns_when_a_callback_resubscribes_itself
    behaviour (fuel : nat) (config : Config) (key : EventKey) (f g : Subscriber)
    (args : list Value) (σ : Registry) :
  maxSubscribers config = Infinity →
  actions (behaviour f args) = [CallUnsubscribe key f; CallSubscribe key f] →
  (∀ h, h ≠ f → actions (behaviour h args) = []) →
  g ≠ f →
  f ∈ subscribersOf key σ →
  g ∈ subscribersOf key σ →
  publishSync behaviour fuel config key args σ = None.
Proof.
  intros Hmax Hf Hothers Hfg Hinf Hing.
  by apply (publishSync_resubscribe behaviour config key f g args).
Qed.

Lemma publishSync_never_returns_witness :
  publishSync selfResubscribing 1000 defaultConfig Sample.a [] Sample.both = None.
Proof.
  apply (publishSync_never_returns_when_a_callback_resubscribes_itself
           selfResubscribing 1000 defaultConfig Sample.a Sample.f Sample.g [] Sample.both).
  - reflexivity.
  - reflexivity.
  - intros h Hh. unfold selfResubscribing. by rewrite decide_False.
  - discriminate.
  - by_evaluation.
  - by_evaluation.
Defined.

(** ** Invariants that the publish functions keep *)

Section DispatchInvariant.

Variable behaviour : Subscriber → list Value → Body.
Variable config : Config.

(** A property of the registry that [subscribe], [unsubscribe] and [clear]
    keep. *)
Variable P : Registry → Prop.
Hypothesis Hsubscribe : ∀ k f σ, P σ → P (subscribe config k f σ).1.1.
Hypothesis Hunsubscribe : ∀ k f σ, P σ → P (unsubscribe k f σ).
Hypothesis Hclear : ∀ σ, P σ → P (clear σ).

Lemma kept_by_runActions (l : list Action) (σ : Registry) :
  P σ → P (runActions config l σ).1.
Proof.
  revert σ. induction l as [|a l IH]; intros σ HP; [done|]. simpl.
  destruct (runAction config a σ) as [σ1 ev1] eqn:Ha.
  assert (P (runAction config a σ).1) as HP1.
  { destruct a; simpl; [by apply Hsubscribe | by apply Hunsubscribe | by apply Hclear]. }
  rewrite Ha in HP1. specialize (IH σ1 HP1). by destruct (runActions config l σ1).
Qed.

Lemma kept_by_invoke callback args σ :
  P σ → P (invoke behaviour config callback args σ).1.1.
Proof.
  intros HP. unfold invoke.
  pose proof (kept_by_runActions (actions (behaviour callback args)) σ HP).
  by destruct (runActions _ _ _).
Qed.

Lemma kept_by_setForEach key args r :
  ∀ fuel index σ σ' evs,
    P σ →
    setForEach behaviour fuel config key args r index σ = Some (σ', evs) →
    P σ'.
Proof.
  induction fuel as [|fuel IH]; intros index σ σ' evs HP Hrun;
    rewrite setForEach_unfold in Hrun;
    destruct (deref (store σ) r !! index) as [entry|]; simplify_eq; try done.
  destruct entry as [callback|]; [|by eapply IH].
  pose proof (kept_by_invoke callback args σ HP) as HP1.
  destruct (invoke behaviour config callback args σ) as [[σ1 ev] out]. simpl in HP1.
  destruct (setForEach behaviour fuel config key args r (S index) σ1)
    as [[σ2 evs2]|] eqn:Hrest; [|done].
  cbv zeta in Hrun. injection Hrun as <- _. by eapply IH.
Qed.

Lemma kept_by_mapForEach args :
  ∀ fuel index σ σ' evs,
    P σ →
    mapForEach behaviour fuel config args index σ = Some (σ', evs) →
    P σ'.
Proof.
  induction fuel as [|fuel IH]; intros index σ σ' evs HP Hrun;
    rewrite mapForEach_unfold in Hrun;
    destruct (eventMap σ !! index) as [entry|]; simplify_eq; try done.
  destruct entry as [[k r]|]; [|by eapply IH].
  destruct (setForEach behaviour fuel config None args r 0 σ)
    as [[σ1 ev]|] eqn:Hset; simplify_eq.
  destruct (mapForEach behaviour fuel config args (S index) σ1)
    as [[σ2 evs2]|] eqn:Hrest; simplify_eq.
  eapply IH; [|done]. by eapply kept_by_setForEach.
Qed.

Lemma kept_by_startAll key args (l : list Subscriber) σ :
  P σ → P (registryAfter (startAll behaviour config key args l σ)).
Proof.
  revert σ. induction l as [|f l IH]; intros σ HP; [done|].
  simpl. pose proof (kept_by_invoke f args σ HP) as HP1.
  destruct (invoke behaviour config f args σ) as [[σ1 ev] out]. simpl in HP1.
  destruct out; simpl; try done.
  - destruct (promiseCatch _ _). by apply IH.
  - destruct (promiseCatch _ _). by apply IH.
Qed.

Lemma kept_by_startSets args (sets : list nat) σ :
  P σ → P (registryAfter (startSets behaviour config args sets σ)).
Proof.
  revert σ. induction sets as [|r sets IH]; intros σ HP; [done|]. simpl.
  pose proof (kept_by_startAll None args (setLive (deref (store σ) r)) σ HP) as HP1.
  destruct (mapped (startAll behaviour config None args (setLive (deref (store σ) r)) σ));
    [done|].
  simpl. by apply IH.
Qed.

Lemma kept_by_publish_functions (fuel : nat) (key : EventKey) (args : list Value)
    (σ : Registry) :
  P σ →
  (∀ σ' evs, publishSync behaviour fuel config key args σ = Some (σ', evs) → P σ')
  ∧ (∀ σ' evs, publishAllSync behaviour fuel config args σ = Some (σ', evs) → P σ')
  ∧ P (registryOf (publish behaviour config key args σ))
  ∧ P (registryOf (publishAll behaviour config args σ)).
Proof.
  intros HP. split; [|split; [|split]].
  - intros σ' evs. unfold publishSync.
    destruct (mapGet key (eventMap σ)); [by apply kept_by_setForEach|].
    by intros [= <- _].
  - intros σ' evs. by apply kept_by_mapForEach.
  - unfold publish. destruct (mapGet key (eventMap σ)); [|done].
    by apply kept_by_startAll.
  - by apply kept_by_startSets.
Qed.

End DispatchInvariant.

(** Whatever the callbacks subscribe, unsubscribe or clear while a publish
    function runs them, under an instance whose [maxSubscribers] is at
    least 1 the registry that the function leaves is well formed and has
    no key without a subscriber, when the registry it started from was. *)
Theorem publish_functions_keep_the_registry_invariant
    behaviour (fuel : nat) (config : Config) (key : EventKey) (args : list Value)
    (σ : Registry) :
  capacityPositive config →
  wfRegistry σ →
  noEmptySets σ →
  let sound σ' := wfRegistry σ' ∧ noEmptySets σ' in
  (∀ σ' evs, publishSync behaviour fuel config key args σ = Some (σ', evs) → sound σ')
  ∧ (∀ σ' evs, publishAllSync behaviour fuel config args σ = Some (σ', evs) → sound σ')
  ∧ sound (registryOf (publish behaviour config key args σ))
  ∧ sound (registryOf (publishAll behaviour config args σ)).
Proof.
  intros Hcap Hwf Hinv.
  apply (kept_by_publish_functions behaviour config
           (λ σ', wfRegistry σ' ∧ noEmptySets σ')); [| | |done].
  - intros k f σ0 [? ?].
    split; [by apply wfRegistry_subscribe | by apply noEmptySets_subscribe].
  - intros k f σ0 [? ?].
    split; [by apply wfRegistry_unsubscribe | by apply noEmptySets_unsubscribe].
  - intros σ0 [? ?]. split; [by apply wfRegistry_clear | apply noEmptySets_clear].
Qed.

Lemma publish_functions_keep_the_registry_invariant_witness :
  let sound σ' := wfRegistry σ' ∧ noEmptySets σ' in
  (∀ σ' evs, publishSync resubscribing 4 defaultConfig Sample.a [] Sample.both
               = Some (σ', evs) → sound σ')
  ∧ (∀ σ' evs, publishAllSync resubscribing 4 defaultConfig [] Sample.both
                 = Some (σ', evs) → sound σ')
  ∧ sound (registryOf (publish resubscribing defaultConfig Sample.a [] Sample.both))
  ∧ sound (registryOf (publishAll resubscribing defaultConfig [] Sample.both)).
Proof.
  apply (publish_functions_keep_the_registry_invariant
           resubscribing 4 defaultConfig Sample.a [] Sample.both).
  - exact I.
  - by_evaluation.
  - apply noEmptySets_alt. intros k Hk.
    vm_compute in Hk. apply list_elem_of_singleton in Hk as ->. by vm_compute.
Defined.

Lemma subscribe_emitted (config : Config) (key : EventKey) (callback : Subscriber)
    (σ : Registry) :
  (subscribe config key callback σ).1.2 =
    if reached (getSubscribersCount key σ) (maxSubscribers config)
    then log Warn (maxMessage config key) config
    else [].
Proof.
  unfold subscribe. destruct (ensure key σ) as [σ1 r] eqn:He.
  destruct (ensure_spec _ _ _ _ He) as (_ & Hlive & _).
  unfold setSize. rewrite Hlive, <- count_subscribersOf.
  by destruct (reached _ _).
Qed.

(** [subscribe] writes to the console only when it refuses and the
    configured level admits "warn".  An instance made without [logLevel]
    takes the default "error": its [subscribe] writes nothing, also when
    it refuses the callback and returns the function that does nothing. *)
Theorem refused_subscription_is_silent_by_default
    (initialConfig : PubSubConfig) (key : EventKey) (callback : Subscriber) (σ : Registry) :
  opt_logLevel initialConfig = None →
  let config := mergeConfig initialConfig in
  (subscribe config key callback σ).1.2 = []
  ∧ (reached (getSubscribersCount key σ) (maxSubscribers config) = true →
     (subscribe config key callback σ).2 = NoOp
     ∧ subscribersOf key (subscribe config key callback σ).1.1 = subscribersOf key σ).
Proof.
  intros Hnone. cbv zeta. split.
  - rewrite subscribe_emitted. destruct (reached _ _); [|done].
    unfold log, isLog, mergeConfig. simpl. by rewrite Hnone.
  - intros Hreached. rewrite subscribe_reached by done. simpl.
    split; [done | apply ensure_subscribersOf].
Qed.

Lemma refused_subscription_is_silent_by_default_witness :
  let config := mergeConfig {| opt_maxSubscribers := Some (Finite 0);
                               opt_logLevel := None; opt_asyncTimeout := None |} in
  (subscribe config Sample.a Sample.f emptyRegistry).1.2 = []
  ∧ (reached (getSubscribersCount Sample.a emptyRegistry) (maxSubscribers config) = true →
     (subscribe config Sample.a Sample.f emptyRegistry).2 = NoOp
     ∧ subscribersOf Sample.a (subscribe config Sample.a Sample.f emptyRegistry).1.1
       = subscribersOf Sample.a emptyRegistry).
Proof.
  apply (refused_subscription_is_silent_by_default
           {| opt_maxSubscribers := Some (Finite 0);
              opt_logLevel := None; opt_asyncTimeout := None |}
           Sample.a Sample.f emptyRegistry).
  reflexivity.
Defined.
